(** * The gateway of ai-auditor-core: task store, upload intake and worker

    A shallow embedding of [services/gateway-go]: the in-memory task store
    (package [store]), the upload handler (package [handlers]) and the
    worker that drives one task through parse, audit and report
    (package [worker], both the gRPC build and the simulated one, and the
    first simulated worker of package [main]).

    Conventions of the embedding:
    - Go's [int] is [Z]; the only values the gateway stores are small
      constants, so no wrap-around arises.
    - [map[string]*Task] is a [gmap string Task].  Every [*Task] is created
      by the upload handler and handed to the store at once, and the map
      never gets a second pointer for a key the worker is busy with (the
      keys are fresh UUIDs); so the cell a key maps to stands for the
      pointer, and a [*Task] the worker holds on to is read only for its
      [SourcePath], which no mutation changes.
    - The mutex only serialises the accesses; each locked region is one
      function of the store here.
    - Outcomes of the outer world (dialling, remote calls, file copies)
      are inputs: a record of results, one per task. *)

From stdpp Require Import gmap strings list fin_maps sorting.
From Stdlib Require Import ZArith Lia Sorted.
From Stdlib Require QArith.

Local Open Scope string_scope.
Local Open Scope Z_scope.
Local Open Scope list_scope.

(** ** Package [store] *)

Module store.

(** [type Task struct] of store.go. *)
Record Task := mkTask {
  ID : string;
  Status : string;
  Progress : Z;
  SourcePath : string;
  AnnotatedPath : string;
  ReportPath : string
}.

(** Field assignments [t.Status = v], [t.Progress = v], ... *)
Definition set_Status (v : string) (t : Task) : Task :=
  mkTask (ID t) v (Progress t) (SourcePath t) (AnnotatedPath t) (ReportPath t).
Definition set_Progress (v : Z) (t : Task) : Task :=
  mkTask (ID t) (Status t) v (SourcePath t) (AnnotatedPath t) (ReportPath t).
Definition set_AnnotatedPath (v : string) (t : Task) : Task :=
  mkTask (ID t) (Status t) (Progress t) (SourcePath t) v (ReportPath t).
Definition set_ReportPath (v : string) (t : Task) : Task :=
  mkTask (ID t) (Status t) (Progress t) (SourcePath t) (AnnotatedPath t) v.

(** [type Store struct { mu; tasks map[string]*Task }]. *)
Record Store := mkStore { tasks : gmap string Task }.

(** [NewStore]: an empty map. *)
Definition NewStore : Store := mkStore ∅.

(** [AddTask]: [s.tasks[t.ID] = t].  It returns nothing. *)
Definition AddTask (t : Task) (s : Store) : Store :=
  mkStore (<[ID t := t]> (tasks s)).

(** [GetTask]: [t, ok := s.tasks[id]]; [None] is [ok == false]. *)
Definition GetTask (id : string) (s : Store) : option Task :=
  tasks s !! id.

(** [UpdateTask]: apply [fn] to the stored task when there is one, and
    report whether there was. *)
Definition UpdateTask (id : string) (fn : Task → Task) (s : Store) : Store * bool :=
  match tasks s !! id with
  | None => (s, false)
  | Some t => (mkStore (<[id := fn t]> (tasks s)), true)
  end.

End store.

Import store.

(** ** The dispatch queue: a buffered channel of task ids *)

(** [make(chan string, n)] with a positive [n], as [main] (100) and the
    test of the handlers (1) make it: the buffer, its capacity and the
    goroutines parked on a send ([go func() { tasks <- id }()]), oldest
    first.  A send that meets the worker waiting on the empty channel is
    taken as passing through the buffer. *)
Record Chan := mkChan {
  buf : list string;
  cap : nat;
  sendq : list string
}.

Definition make_chan (n : nat) : Chan := mkChan [] n [].

(** [select { case tasks <- id: ...; default: ... }]: the send is taken
    when the buffer has room, and otherwise the default branch runs.
    [None] is the default branch. *)
Definition try_send (id : string) (c : Chan) : option Chan :=
  if decide (length (buf c) < cap c)%nat
  then Some (mkChan (buf c ++ [id]) (cap c) (sendq c))
  else None.

(** [go func() { tasks <- id }()]: a sender of its own; it goes through at
    once when there is room and parks otherwise.  Senders park here in
    the order they were started; the scheduler may park them in another. *)
Definition go_send (id : string) (c : Chan) : Chan :=
  match try_send id c with
  | Some c' => c'
  | None => mkChan (buf c) (cap c) (sendq c ++ [id])
  end.

(** [id := <-tasks]: take the oldest id; the oldest parked sender, if any,
    then completes its send.  [None]: the receiver would block. *)
Definition recv (c : Chan) : option (string * Chan) :=
  match buf c with
  | [] => None
  | id :: rest =>
      match sendq c with
      | [] => Some (id, mkChan rest (cap c) [])
      | x :: q => Some (id, mkChan (rest ++ [x]) (cap c) q)
      end
  end.

(** ** Package [handlers] *)

Module handlers.

(** What the request and the file system do during one upload. *)
Record UploadIO := mkUploadIO {
  form_file_ok : bool;   (* c.FormFile("file") *)
  open_ok : bool;        (* f.Open() *)
  create_ok : bool;      (* os.Create(dstPath) *)
  copy_ok : bool         (* io.Copy(dst, src) *)
}.

(** What the handler gives back to echo: a JSON answer with its status
    code, or the error it returns as it is. *)
Inductive Response :=
| JSON (code : Z) (body : list (string * string))
| HandlerError.

Definition StatusBadRequest : Z := 400.
Definition StatusAccepted : Z := 202.

(** [filepath.Join("..", "temp_docs", name)]: for the names the gateway
    builds (a UUID and a suffix) cleaning the path changes nothing. *)
Definition temp_docs (name : string) : string := "../temp_docs/" +:+ name.

(** The two things an upload touches. *)
Record Gateway := mkGateway {
  g_store : Store;
  g_tasks : Chan
}.

(** [UploadHandler(s, tasks)]; [id] is the value of [uuid.New().String()]. *)
Definition UploadHandler (io : UploadIO) (id : string) (g : Gateway)
  : Response * Gateway :=
  if negb (form_file_ok io) then
    (JSON StatusBadRequest [("error", "file required")], g)
  else if negb (open_ok io) then (HandlerError, g)
  else if negb (create_ok io) then (HandlerError, g)
  else if negb (copy_ok io) then (HandlerError, g)
  else
    let dstPath := temp_docs (id +:+ ".docx") in
    let s1 := AddTask (mkTask id "Pending" 0 dstPath "" "") (g_store g) in
    match try_send id (g_tasks g) with
    | Some c => (JSON StatusAccepted [("task_id", id)], mkGateway s1 c)
    | None =>
        (* queue full: mark queued and enqueue asynchronously *)
        let s2 := fst (UpdateTask id (set_Status "Queued") s1) in
        (JSON StatusAccepted [("task_id", id)],
         mkGateway s2 (go_send id (g_tasks g)))
    end.

End handlers.

Import handlers.

(** ** The messages of [auditor.proto] *)

Module auditorpb.

(** Modelled from the spec: the generated package
    [shared/protos/go/academic/auditor] is not part of the sources; the
    data model gives the fields.  [Severity] is the enum
    INFO < MEDIUM < CRITICAL. *)
Inductive Severity := INFO | MEDIUM | CRITICAL.

Definition severity_rank (v : Severity) : Z :=
  match v with INFO => 0 | MEDIUM => 1 | CRITICAL => 2 end.

(** Modelled from the spec: an issue, [section_id] being the join key. *)
Record Issue := mkIssue {
  section_id : Z;
  code : string;
  message : string;
  severity : Severity;
  score_impact : QArith_base.Q
}.

(** Modelled from the spec: a section of the parsed document. *)
Record Section := mkSection {
  sec_id : Z;
  element_type : string;
  raw_text : string;
  props : list (string * string)
}.

(** Modelled from the spec: the answer of the parser. *)
Record ParsedData := mkParsedData {
  doc_id : string;
  title : string;
  Sections : list Section
}.

(** Modelled from the spec: what [AuditRules] and [AnalyzeSemantics]
    both answer. *)
Record AuditResponse := mkAuditResponse {
  Issues : list Issue;
  ScoreImpact : QArith_base.Q
}.

(** [&auditorpb.AuditResponse{}]: the zero value. *)
Definition empty_response : AuditResponse :=
  mkAuditResponse [] (QArith_base.Qmake 0 1).

End auditorpb.

Import auditorpb.

(** ** The world a worker runs in *)

Inductive Service := Parser | Engine | Inference.

(** What a worker asks of the outside, in the order it asks. *)
Inductive Call :=
| Dial (svc : Service)
| ParseDocument (file_path : string)
| AuditRules (data : ParsedData)
| AnalyzeSemantics (sections : list Section)
| CopyFile (src dst : string)
| WriteReport (path task_id : string) (issues : list Issue).

(** [copyFile]: where it stops. *)
Inductive CopyResult := CopyOpenErr | CopyCreateErr | CopyIOErr | CopyDone.

(** [WriteReport]: where it stops. *)
Inductive ReportResult := ReportCreateErr | ReportEncodeErr | ReportDone.

(** [os.Create(dst)] was reached and succeeded: the file exists afterwards. *)
Definition copy_creates (r : CopyResult) : bool :=
  match r with CopyOpenErr | CopyCreateErr => false | _ => true end.

Definition report_creates (r : ReportResult) : bool :=
  match r with ReportCreateErr => false | _ => true end.

(** The results the outside gives while one task is processed; [None] and
    [false] are a non-nil [err] (a refusal, a transport error or the
    deadline of the context). *)
Record Outcome := mkOutcome {
  parser_dial : bool;
  parse_document : option ParsedData;
  engine_dial : bool;
  inference_dial : bool;
  audit_rules : option AuditResponse;
  analyze_semantics : option AuditResponse;
  copy_file : CopyResult;
  write_report : ReportResult
}.

(** The store, every store the worker's mutations produced so far (oldest
    first, beginning with the store it started from), the calls made and
    the files created. *)
Record World := mkWorld {
  w_store : Store;
  w_history : list Store;
  w_calls : list Call;
  w_files : gset string
}.

Definition start (s : Store) : World := mkWorld s [s] [] ∅.

(** One iteration of [for id := range tasks]: a computation over the
    world which ends either normally or by [continue] ([None]). *)
Definition M (A : Type) : Type := World → option A * World.

#[export] Instance M_ret : MRet M := λ A a w, (Some a, w).

#[export] Instance M_bind : MBind M := λ A B f m w,
  match m w with
  | (Some a, w') => f a w'
  | (None, w') => (None, w')
  end.

Definition continue {A : Type} : M A := λ w, (None, w).

(** [s.GetTask(id)]. *)
Definition get_task (id : string) : M (option Task) :=
  λ w, (Some (GetTask id (w_store w)), w).

(** [s.UpdateTask(id, fn)]; a store that was mutated is recorded. *)
Definition update_task (id : string) (fn : Task → Task) : M bool :=
  λ w,
    let '(s', ok) := UpdateTask id fn (w_store w) in
    (Some ok,
     mkWorld s' (if ok then w_history w ++ [s'] else w_history w)
             (w_calls w) (w_files w)).

Definition call (c : Call) : M unit :=
  λ w, (Some tt, mkWorld (w_store w) (w_history w) (w_calls w ++ [c]) (w_files w)).

(** The files after [os.Create(path)], which made the file or failed. *)
Definition with_file (made : bool) (path : string) (fs : gset string)
  : gset string :=
  if made then {[path]} ∪ fs else fs.

Definition create_file (made : bool) (path : string) : M unit :=
  λ w, (Some tt,
        mkWorld (w_store w) (w_history w) (w_calls w)
                (with_file made path (w_files w))).

(** [_ = copyFile(src, dst)]: the error is dropped. *)
Definition copyFile (r : CopyResult) (src dst : string) : M unit :=
  call (CopyFile src dst);; create_file (copy_creates r) dst.

(** [_ = store.WriteReport(path, {"task_id": id, "issues": issues})]. *)
Definition writeReport (r : ReportResult) (path id : string) (issues : list Issue)
  : M unit :=
  call (WriteReport path id issues);; create_file (report_creates r) path.

(** The world after one iteration, however it ended. *)
Definition exec {A : Type} (m : M A) (w : World) : World := snd (m w).

(** [for id := range tasks { body }] over the ids the channel delivers,
    each with what the outside does while it is processed; the next
    iteration begins however the last one ended. *)
Fixpoint for_range (body : string → Outcome → M unit)
    (jobs : list (string * Outcome)) (w : World) : World :=
  match jobs with
  | [] => w
  | (id, o) :: rest => for_range body rest (exec (body id o) w)
  end.

(** ** Package [worker], built with the [grpc] tag *)

Module worker_grpc.

(** [go func() { resp, err := engineClient.AuditRules(ctx2, auditReq); ... }()]
    followed by [<-chAudit]: the answer, or the zero response on error.
    The two goroutines run side by side and each fills a channel of its
    own, so what the worker receives does not depend on their order. *)
Definition delivered (r : option AuditResponse) : AuditResponse :=
  match r with
  | Some resp => resp
  | None => empty_response
  end.

Definition go_AuditRules (parsed : ParsedData) (o : Outcome) : M AuditResponse :=
  call (AuditRules parsed);;
  mret (delivered (audit_rules o)).

Definition go_AnalyzeSemantics (parsed : ParsedData) (o : Outcome) : M AuditResponse :=
  call (AnalyzeSemantics (Sections parsed));;
  mret (delivered (analyze_semantics o)).

(** The body of the loop of [Worker] for the id received. *)
Definition process (id : string) (o : Outcome) : M unit :=
  mt ← get_task id;
  match mt with
  | None => continue
  | Some t =>
    update_task id (λ t, set_Progress 5 (set_Status "Parsing" t));;
    call (Dial Parser);;
    if negb (parser_dial o) then
      update_task id (set_Status "Error: parser connect");; continue
    else
    call (ParseDocument (SourcePath t));;
    match parse_document o with
    | None => update_task id (set_Status "Error: parse");; continue
    | Some parsed =>
      update_task id (λ t, set_Progress 40 (set_Status "Auditing" t));;
      call (Dial Engine);;
      if negb (engine_dial o) then
        update_task id (set_Status "Error: engine connect");; continue
      else
      call (Dial Inference);;
      if negb (inference_dial o) then
        update_task id (set_Status "Error: inference connect");; continue
      else
      auditResp ← go_AuditRules parsed o;
      semResp ← go_AnalyzeSemantics parsed o;
      let issues := Issues auditResp ++ Issues semResp in
      let annotated := SourcePath t +:+ "-annotated.docx" in
      let report := SourcePath t +:+ "-report.json" in
      copyFile (copy_file o) (SourcePath t) annotated;;
      writeReport (write_report o) report id issues;;
      update_task id (λ t,
        set_Progress 100 (set_Status "Completed"
          (set_ReportPath report (set_AnnotatedPath annotated t))));;
      mret tt
    end
  end.

(** [func Worker(tasks <-chan string, s *store.Store)]. *)
Definition Worker : list (string * Outcome) → World → World := for_range process.

End worker_grpc.

(** ** Package [worker], default build: the simulated pipeline *)

Module worker_sim.

(** [for p := 50; p <= 90; p += 10 { body }].  The fuel bounds the number
    of rounds; [audit_loop_rounds] below shows that the guard, not the
    fuel, ends the loop. *)
Fixpoint for_p (fuel : nat) (p : Z) (body : Z → M unit) : M unit :=
  match fuel with
  | O => mret tt
  | S n => if decide (p <= 90) then body p;; for_p n (p + 10) body else mret tt
  end.

Definition audit_loop (body : Z → M unit) : M unit := for_p 6 50 body.

(** The body of the loop of the simulated [Worker]. *)
Definition process (id : string) (o : Outcome) : M unit :=
  ok ← update_task id (λ t, set_Progress 10 (set_Status "Parsing" t));
  if negb ok then continue
  else
    update_task id (λ t, set_Progress 40 (set_Status "Auditing" t));;
    audit_loop (λ p, update_task id (set_Progress p);; mret tt);;
    let annotated := temp_docs (id +:+ "-annotated.docx") in
    let report := temp_docs (id +:+ "-report.json") in
    mt ← get_task id;
    match mt with
    | Some t => copyFile (copy_file o) (SourcePath t) annotated
    | None => mret tt
    end;;
    writeReport (write_report o) report id [];;
    update_task id (λ t,
      set_Progress 100 (set_Status "Completed"
        (set_ReportPath report (set_AnnotatedPath annotated t))));;
    mret tt.

Definition Worker : list (string * Outcome) → World → World := for_range process.

End worker_sim.

(** ** Package [main] before the split into packages: the first worker *)

Module worker_main.

(** [t.F = v] through the pointer [t] taken from the map under the lock:
    the cell of [id]. *)
Definition assign (id : string) (fn : Task → Task) : M unit :=
  update_task id fn;; mret tt.

(** The body of the loop of the first simulated [Worker]. *)
Definition process (id : string) (o : Outcome) : M unit :=
  mt ← get_task id;
  match mt with
  | None => continue
  | Some t =>
    assign id (λ t, set_Progress 10 (set_Status "Parsing" t));;
    assign id (λ t, set_Progress 40 (set_Status "Auditing" t));;
    worker_sim.audit_loop (λ p, assign id (set_Progress p));;
    let annotated := temp_docs (id +:+ "-annotated.docx") in
    let report := temp_docs (id +:+ "-report.json") in
    copyFile (copy_file o) (SourcePath t) annotated;;
    writeReport (write_report o) report id [];;
    assign id (λ t,
      set_Progress 100 (set_Status "Completed"
        (set_ReportPath report (set_AnnotatedPath annotated t))))
  end.

Definition Worker : list (string * Outcome) → World → World := for_range process.

End worker_main.

(** ** Observations on a run *)

(** A field of the record of [id] in a store, if there is one. *)
Definition field_of {A : Type} (f : Task → A) (id : string) (s : Store)
  : option A :=
  f <$> tasks s !! id.

(** The successive values of a field of the task [id]. *)
Definition field_history {A : Type} (f : Task → A) (id : string) (w : World)
  : list A :=
  omap (field_of f id) (w_history w).

Definition progress_history : string → World → list Z := field_history Progress.

(** The issues of a call, when it is [WriteReport] for the task [id]. *)
Definition report_for (id : string) (c : Call) : option (list Issue) :=
  match c with
  | WriteReport _ id' issues => if decide (id' = id) then Some issues else None
  | _ => None
  end.

(** The issue lists handed to [WriteReport] for the task [id]. *)
Definition reported_issues (id : string) (w : World) : list (list Issue) :=
  omap (report_for id) (w_calls w).

(** How many times [AnalyzeSemantics] went out on the network. *)
Definition is_semantic_call (c : Call) : bool :=
  match c with AnalyzeSemantics _ => true | _ => false end.

Definition semantic_calls (w : World) : nat :=
  length (List.filter is_semantic_call (w_calls w)).

(** The composite key of an issue. *)
Definition issue_key (i : Issue) : Z * string := (section_id i, code i).

(** Terminal states: [Completed] and the [Error: ...] ones. *)
Definition is_error (st : string) : bool := String.prefix "Error" st.
Definition terminal (st : string) : bool :=
  bool_decide (st = "Completed") || is_error st.

(** ** Vocabulary of the statements *)

Definition io_ok (io : UploadIO) : Prop :=
  form_file_ok io = true ∧ open_ok io = true
  ∧ create_ok io = true ∧ copy_ok io = true.

(** The parser stage fails: the parser cannot be dialled, or it is and
    [ParseDocument] answers with an error (a refusal or the deadline). *)
Definition parse_fails (o : Outcome) : Prop :=
  parser_dial o = false ∨ parse_document o = None.

(** All three services are reached: the parser answers and both dials of
    the audit stage succeed. *)
Definition reaches_audit (o : Outcome) : bool :=
  parser_dial o && bool_decide (is_Some (parse_document o))
  && engine_dial o && inference_dial o.

(** The record an iteration leaves for its task. *)
Definition final_task (id : string) (w : World) : option Task :=
  tasks (w_store w) !! id.

(** The records the store held for [id], oldest first. *)
Definition task_history : string → World → list Task := field_history (λ t, t).

(** Neither path is set, and the task is not complete. *)
Definition unfinished (t : Task) : Prop :=
  AnnotatedPath t = "" ∧ ReportPath t = ""
  ∧ Status t ≠ "Completed" ∧ Progress t < 100.

(** The record the last mutation of a successful iteration writes for a
    task uploaded as [id]. *)
Definition completed_task (id : string) : Task :=
  let src := temp_docs (id +:+ ".docx") in
  mkTask id "Completed" 100 src (src +:+ "-annotated.docx") (src +:+ "-report.json").

(** Ascending by [section_id]. *)
Definition by_section (l : list Issue) : Prop := Sorted Z.le (section_id <$> l).

(** *** Relations between the world before and after *)

(** A relation between the world before and the world after which every
    step of a computation respects. *)
Definition keeps (R : relation World) {A : Type} (m : M A) : Prop :=
  ∀ w, R w (exec m w).

(** The cell of [id] holding [t], the rest of the store of [w] as it is. *)
Definition cell (id : string) (t : Task) (w : World) : Store :=
  mkStore (<[id := t]> (tasks (w_store w))).

(** The record of [id'] is the same after as before, and so it is in
    every store recorded in between. *)
Definition untouched (id' : string) : relation World := λ w w',
  tasks (w_store w') !! id' = tasks (w_store w) !! id'
  ∧ ∃ hs, w_history w' = w_history w ++ hs
          ∧ Forall (λ s, tasks s !! id' = tasks (w_store w) !! id') hs.

(** The store holds the same ids after as before. *)
Definition same_ids : relation World := λ w w',
  ∀ i, is_Some (tasks (w_store w') !! i) ↔ is_Some (tasks (w_store w) !! i).

(** The records the gRPC worker writes for a task found as [t]: when it
    begins, when the parser has answered, and when it is done; and the
    two paths it builds from the source path. *)
Definition parsing_record (t : Task) : Task :=
  set_Progress 5 (set_Status "Parsing" t).

Definition auditing_record (t : Task) : Task :=
  set_Progress 40 (set_Status "Auditing" (parsing_record t)).

Definition annotated_of (t : Task) : string := SourcePath t +:+ "-annotated.docx".

Definition report_of (t : Task) : string := SourcePath t +:+ "-report.json".

Definition completed_record (t : Task) : Task :=
  set_Progress 100 (set_Status "Completed"
    (set_ReportPath (report_of t)
       (set_AnnotatedPath (annotated_of t) (auditing_record t)))).

(** The records the simulated workers store one after the other for a
    task found as [t], and the world they leave; used to state what a run
    of theirs amounts to. *)
Definition sim_stages (id : string) (t : Task) : list Task :=
  let t1 := set_Progress 10 (set_Status "Parsing" t) in
  let t2 := set_Progress 40 (set_Status "Auditing" t1) in
  let annotated := temp_docs (id +:+ "-annotated.docx") in
  let report := temp_docs (id +:+ "-report.json") in
  [t1; t2; set_Progress 50 t2; set_Progress 60 t2; set_Progress 70 t2;
   set_Progress 80 t2; set_Progress 90 t2;
   set_Progress 100 (set_Status "Completed"
     (set_ReportPath report (set_AnnotatedPath annotated (set_Progress 90 t2))))].

Definition sim_after_run (id : string) (o : Outcome) (w : World) (t : Task)
  : World :=
  let annotated := temp_docs (id +:+ "-annotated.docx") in
  let report := temp_docs (id +:+ "-report.json") in
  mkWorld (cell id (default t (last (sim_stages id t))) w)
          (w_history w ++ ((λ t', cell id t' w) <$> sim_stages id t))
          (w_calls w ++ [CopyFile (SourcePath t) annotated;
                         WriteReport report id []])
          (with_file (report_creates (write_report o)) report
             (with_file (copy_creates (copy_file o)) annotated (w_files w))).

(** *** Sample inputs *)

(** Sample inputs: what the services answer when all goes well, and a
    gateway whose queue holds up to a hundred ids, as [main] makes it. *)
Definition sample_issue (sec : Z) (c : string) (sev : Severity) : Issue :=
  mkIssue sec c "" sev (QArith_base.Qmake 0 1).

Definition sample_outcome (rule sem : list Issue) : Outcome :=
  mkOutcome true (Some (mkParsedData "doc" "title" [])) true true
            (Some (mkAuditResponse rule (QArith_base.Qmake 0 1)))
            (Some (mkAuditResponse sem (QArith_base.Qmake 0 1)))
            CopyDone ReportDone.

Definition sample_gateway : Gateway := mkGateway NewStore (make_chan 100).

Definition all_ok : UploadIO := mkUploadIO true true true true.

(** The store after the uploads of the given ids, one after the other. *)
Definition uploaded (ids : list string) : Store :=
  g_store (foldl (λ g id, (UploadHandler all_ok id g).2) sample_gateway ids).

(** The parser and the engine answer, the inference service is connected
    and its call fails. *)
Definition semantics_fails : Outcome :=
  mkOutcome true (Some (mkParsedData "doc" "title" [])) true true
            (Some empty_response) None CopyDone ReportDone.

(** * More of the gateway *)

(** ** Package [handlers]: the handlers which read *)

Module handlers_read.

(** What opening and decoding the report file does. *)
Inductive ReadResult := ReadOpenErr | ReadDecodeErr | ReadOk.

(** What a reading handler gives back to echo: [c.JSON] of a small map,
    [c.JSON] of the task itself, [c.JSON] of the document decoded from the
    file at a path, [c.NoContent], or [c.File] of a path. *)
Inductive Answer :=
| AJSON (code : Z) (body : list (string * string))
| ATask (code : Z) (t : Task)
| ADecoded (code : Z) (path : string)
| ANoContent (code : Z)
| AFile (path : string).

Definition StatusOK : Z := 200.
Definition StatusNotFound : Z := 404.
Definition StatusInternalServerError : Z := 500.

Definition not_found : Answer := AJSON StatusNotFound [("error", "task not found")].

(** [StatusHandler(s)], for the [id] of the route. *)
Definition StatusHandler (id : string) (s : Store) : Answer :=
  match GetTask id s with
  | None => not_found
  | Some t => ATask StatusOK t
  end.

(** [ReportHandler(s)]. *)
Definition ReportHandler (read : ReadResult) (id : string) (s : Store) : Answer :=
  match GetTask id s with
  | None => not_found
  | Some t =>
    if negb (bool_decide (Status t = "Completed")) then
      AJSON StatusAccepted [("status", Status t)]
    else if bool_decide (ReportPath t = "") then
      AJSON StatusInternalServerError [("error", "report missing")]
    else
      match read with
      | ReadOpenErr =>
          AJSON StatusInternalServerError [("error", "cannot open report")]
      | ReadDecodeErr =>
          AJSON StatusInternalServerError [("error", "invalid report")]
      | ReadOk => ADecoded StatusOK (ReportPath t)
      end
  end.

(** [DownloadHandler(s)]. *)
Definition DownloadHandler (id : string) (s : Store) : Answer :=
  match GetTask id s with
  | None => not_found
  | Some t =>
    if negb (bool_decide (Status t = "Completed")) then
      ANoContent StatusAccepted
    else if negb (bool_decide (AnnotatedPath t = "")) then
      AFile (AnnotatedPath t)
    else if negb (bool_decide (ReportPath t = "")) then
      AFile (ReportPath t)
    else
      AJSON StatusInternalServerError [("error", "nothing to download")]
  end.

End handlers_read.

Import handlers_read.

(** ** The worker's end of the queue *)

(** [for id := range tasks] for as long as an id is at hand: the ids the
    worker receives before it has to wait, at most [fuel] of them. *)
Fixpoint drain (fuel : nat) (c : Chan) : list string :=
  match fuel with
  | O => []
  | S n =>
      match recv c with
      | None => []
      | Some (id, c') => id :: drain n c'
      end
  end.

(** A channel as the runtime keeps it: the buffer within its capacity,
    and senders parked only while the buffer is full. *)
Definition chan_ok (c : Chan) : Prop :=
  (length (buf c) ≤ cap c)%nat
  ∧ (sendq c ≠ [] → length (buf c) = cap c).

(** The ids on their way to the worker: the buffered ones, then the ones
    with a parked sender. *)
Definition pending (c : Chan) : list string := buf c ++ sendq c.

(** Uploads one after the other, each with what the request and the file
    system do and with its fresh id. *)
Definition uploads (reqs : list (UploadIO * string)) (g : Gateway) : Gateway :=
  foldl (λ g r, (UploadHandler r.1 r.2 g).2) g reqs.

Definition io_okb (io : UploadIO) : bool :=
  form_file_ok io && open_ok io && create_ok io && copy_ok io.

(** The ids of the uploads which were accepted. *)
Definition accepted (reqs : list (UploadIO * string)) : list string :=
  (filter (λ r, io_okb r.1 = true) reqs).*2.

(** Every record sits under its own id. *)
Definition keyed (s : Store) : Prop :=
  ∀ id t, tasks s !! id = Some t → ID t = id.

(** ** The first gRPC worker, of package [main] *)

Module worker_grpc_main.

(** The body of the loop of the first gRPC [Worker], which writes the
    fields through the pointer taken from the map, under the lock. *)
Definition process (id : string) (o : Outcome) : M unit :=
  mt ← get_task id;
  match mt with
  | None => continue
  | Some t =>
    worker_main.assign id (λ t, set_Progress 5 (set_Status "Parsing" t));;
    call (Dial Parser);;
    if negb (parser_dial o) then
      worker_main.assign id (set_Status "Error: parser connect");; continue
    else
    call (ParseDocument (SourcePath t));;
    match parse_document o with
    | None => worker_main.assign id (set_Status "Error: parse");; continue
    | Some parsed =>
      worker_main.assign id (λ t, set_Progress 40 (set_Status "Auditing" t));;
      call (Dial Engine);;
      if negb (engine_dial o) then
        worker_main.assign id (set_Status "Error: engine connect");; continue
      else
      call (Dial Inference);;
      if negb (inference_dial o) then
        worker_main.assign id (set_Status "Error: inference connect");; continue
      else
      auditResp ← worker_grpc.go_AuditRules parsed o;
      semResp ← worker_grpc.go_AnalyzeSemantics parsed o;
      let issues := Issues auditResp ++ Issues semResp in
      let annotated := SourcePath t +:+ "-annotated.docx" in
      let report := SourcePath t +:+ "-report.json" in
      copyFile (copy_file o) (SourcePath t) annotated;;
      writeReport (write_report o) report id issues;;
      worker_main.assign id (λ t,
        set_Progress 100 (set_Status "Completed"
          (set_ReportPath report (set_AnnotatedPath annotated t))))
    end
  end.

Definition Worker : list (string * Outcome) → World → World := for_range process.

End worker_grpc_main.

(** ** Vocabulary of the further statements *)

(** The status in which an iteration of the gRPC worker stops before the
    audit calls, if it does: the first of the four steps to fail. *)
Definition stops_with (o : Outcome) : option string :=
  if negb (parser_dial o) then Some "Error: parser connect"
  else if negb (bool_decide (is_Some (parse_document o))) then Some "Error: parse"
  else if negb (engine_dial o) then Some "Error: engine connect"
  else if negb (inference_dial o) then Some "Error: inference connect"
  else None.

(** The two outcomes agree on the four steps which can stop a task. *)
Definition same_gates (o o' : Outcome) : Prop :=
  parser_dial o = parser_dial o'
  ∧ (is_Some (parse_document o) ↔ is_Some (parse_document o'))
  ∧ engine_dial o = engine_dial o'
  ∧ inference_dial o = inference_dial o'.


(** A later record of the same task: same id, same source. *)
Definition same_origin (t t' : Task) : Prop :=
  ID t' = ID t ∧ SourcePath t' = SourcePath t.

(** The same task later on, with its progress between 0 and 100. *)
Definition in_range_of (t t' : Task) : Prop :=
  same_origin t t' ∧ 0 ≤ Progress t' ≤ 100.

(** A relation on worlds for [keyed]. *)
Definition keeps_keyed : relation World := λ w w',
  keyed (w_store w) → keyed (w_store w').


(** * The rule engine's start-up *)

From Stdlib Require DecimalString DecimalZ DecimalPos.
From Stdlib Require Import Ascii.

(** ** The environment the services read *)

(** The variables of a process: [os.Getenv] gives the empty string for a
    variable which is not set, [System.getenv] gives [null]. *)
Definition Getenv (env : gmap string string) (key : string) : string :=
  default "" (env !! key).

(** [getenvDefault(key, def)] of the gRPC worker. *)
Definition getenvDefault (env : gmap string string) (key def : string) : string :=
  let v := Getenv env key in
  if negb (bool_decide (v = "")) then v else def.

(** The address the gRPC worker dials for the rule engine. *)
Definition engineAddr (env : gmap string string) : string :=
  getenvDefault env "JAVA_ENGINE_ADDR" "engine-java:9191".

(** The same in the first gRPC worker, of package [main]. *)
Definition engineAddr_main (env : gmap string string) : string :=
  let engineAddr := Getenv env "JAVA_ENGINE_ADDR" in
  if bool_decide (engineAddr = "") then "engine-java:9191" else engineAddr.

(** ** [EngineApplication.main]: the ports *)

Module engine_java.

(** Java's [int]: 32 bits, wrapping around. *)
Definition MIN_VALUE : Z := -2147483648.
Definition MAX_VALUE : Z := 2147483647.

Definition wrap32 (z : Z) : Z :=
  (z + 2147483648) `mod` 4294967296 - 2147483648.

(** The strings are those of characters up to U+00FF, which is what an
    address or a port is written in; among these [Character.isWhitespace]
    holds of U+0009 to U+000D and U+001C to U+0020, and the decimal digits
    are ['0'] to ['9']. *)
Definition isWhitespace (c : Ascii.ascii) : bool :=
  let n := Z.of_N (Ascii.N_of_ascii c) in
  (9 <=? n) && (n <=? 13) || (28 <=? n) && (n <=? 32).

(** [s.isBlank()]. *)
Fixpoint isBlank (s : string) : bool :=
  match s with
  | EmptyString => true
  | String c r => isWhitespace c && isBlank r
  end.

(** [s.lastIndexOf(c)]: -1 when [c] does not occur. *)
Fixpoint lastIndexOf (c : Ascii.ascii) (s : string) : Z :=
  match s with
  | EmptyString => -1
  | String x r =>
      let i := lastIndexOf c r in
      if 0 <=? i then i + 1 else if Ascii.eqb x c then 0 else -1
  end.

(** [s.substring(n)], for [0 <= n <= s.length()]. *)
Fixpoint substring (n : nat) (s : string) : string :=
  match n, s with
  | O, _ => s
  | S n, String _ r => substring n r
  | S _, EmptyString => EmptyString
  end.

(** The value of a string of one decimal digit at least. *)
Definition digits (s : string) : option Z :=
  match s with
  | EmptyString => None
  | _ => Z.of_uint <$> DecimalString.NilEmpty.uint_of_string s
  end.

(** [Integer.parseInt(s)]; [None] is the [NumberFormatException] (also
    thrown for [null]).  An optional sign, then digits, and the value
    within the range of [int]. *)
Definition parseInt (s : option string) : option Z :=
  match s with
  | None => None
  | Some EmptyString => None
  | Some (String firstChar r as s) =>
      if Ascii.eqb firstChar "-" then
        v ← digits r; if MIN_VALUE <=? - v then Some (- v) else None
      else if Ascii.eqb firstChar "+" then
        v ← digits r; if v <=? MAX_VALUE then Some v else None
      else
        v ← digits s; if v <=? MAX_VALUE then Some v else None
  end.

(** [Integer.toString(i)]. *)
Definition Integer_toString (i : Z) : string :=
  DecimalString.NilZero.string_of_int (Z.to_int i).

(** The port an address names, as [main] reads it: what follows the last
    colon, or all of it when there is no colon or nothing after it. *)
Definition portStr (addr : string) : string :=
  let colon := lastIndexOf ":"%char addr in
  if negb (colon =? -1) && (colon <? Z.of_nat (String.length addr) - 1)
  then substring (Z.to_nat (colon + 1)) addr
  else addr.

(** The first part of [main]: the system property [server.port] after it,
    given the property before ([None]: not set). *)
Definition server_port (env : gmap string string) (prop : option string)
  : option string :=
  match env !! "JAVA_ENGINE_ADDR" with
  | Some addr =>
      if negb (isBlank addr) then
        match parseInt (Some (portStr addr)) with
        | Some port => Some (Integer_toString port)
        | None => prop
        end
      else prop
  | None => prop
  end.

(** The second part: the port handed to [EmbeddedGrpcServer.start]. *)
Definition grpcPort (env : gmap string string) (prop : option string) : Z :=
  let explicit :=
    match env !! "JAVA_GRPC_PORT" with
    | Some grpcEnv => if negb (isBlank grpcEnv) then Some grpcEnv else None
    | None => None
    end in
  match explicit with
  | Some grpcEnv => default 9192 (parseInt (Some grpcEnv))
  | None =>
      let portProp := server_port env prop in
      let httpPort := default 0 (parseInt portProp) in
      if 0 <? httpPort then wrap32 (httpPort + 1) else 9192
  end.

End engine_java.

(** [JAVA_GRPC_PORT] is not set, or blank: the gRPC port follows the
    HTTP port. *)
Definition no_explicit_grpc (env : gmap string string) : Prop :=
  match env !! "JAVA_GRPC_PORT" with
  | Some grpcEnv => engine_java.isBlank grpcEnv = true
  | None => True
  end.

(** * The engine's embedded gRPC server *)

(** [EmbeddedGrpcServer]: the three handlers it registers for the service
    [academic.auditor.DocumentAuditor]. *)
Module engine_grpc.

(** The handler of [ParseDocument]: the document id is the path of the
    request, the title the path after [parsed:]; no section is set. *)
Definition ParseDocument (file_path : string) : ParsedData :=
  mkParsedData file_path ("parsed:" +:+ file_path) [].

(** The handler of [AuditRules]: no issue, [score_impact] 0. *)
Definition AuditRules (request : ParsedData) : AuditResponse :=
  mkAuditResponse [] (QArith_base.Qmake 0 1).

(** The handler of [AnalyzeSemantics]: the same answer. *)
Definition AnalyzeSemantics (request : list Section) : AuditResponse :=
  mkAuditResponse [] (QArith_base.Qmake 0 1).

End engine_grpc.

(** The two audit calls are answered by the embedded server. *)
Definition answered_by_stub (o : Outcome) : Prop :=
  ∀ parsed, parse_document o = Some parsed →
    audit_rules o = Some (engine_grpc.AuditRules parsed)
    ∧ analyze_semantics o = Some (engine_grpc.AnalyzeSemantics (Sections parsed)).

(** The same outcome with both audit calls failing. *)
Definition without_audits (o : Outcome) : Outcome :=
  mkOutcome (parser_dial o) (parse_document o) (engine_dial o)
            (inference_dial o) None None (copy_file o) (write_report o).

(** * Package [main] before the split: the handlers *)

Module handlers_main.

(** [(s *Store) UploadHandler(tasks)].  The record is written into the
    map directly and its status through the pointer the map holds,
    [s.tasks[id].Status = "Queued"]: with no pointer there the handler
    panics, which is [None]. *)
Definition UploadHandler (io : UploadIO) (id : string) (g : Gateway)
  : option (Response * Gateway) :=
  if negb (form_file_ok io) then
    Some (JSON StatusBadRequest [("error", "file required")], g)
  else if negb (open_ok io) then Some (HandlerError, g)
  else if negb (create_ok io) then Some (HandlerError, g)
  else if negb (copy_ok io) then Some (HandlerError, g)
  else
    let dstPath := temp_docs (id +:+ ".docx") in
    let m1 := <[id := mkTask id "Pending" 0 dstPath "" ""]> (tasks (g_store g)) in
    match try_send id (g_tasks g) with
    | Some c => Some (JSON StatusAccepted [("task_id", id)], mkGateway (mkStore m1) c)
    | None =>
        match m1 !! id with
        | None => None
        | Some t =>
            Some (JSON StatusAccepted [("task_id", id)],
                  mkGateway (mkStore (<[id := set_Status "Queued" t]> m1))
                            (go_send id (g_tasks g)))
        end
    end.

(** [(s *Store) StatusHandler]. *)
Definition StatusHandler (id : string) (s : Store) : Answer :=
  match tasks s !! id with
  | None => not_found
  | Some t => ATask StatusOK t
  end.

(** [(s *Store) ReportHandler]. *)
Definition ReportHandler (read : ReadResult) (id : string) (s : Store) : Answer :=
  match tasks s !! id with
  | None => not_found
  | Some t =>
    if negb (bool_decide (Status t = "Completed")) then
      AJSON StatusAccepted [("status", Status t)]
    else
      let reportPath := ReportPath t in
      if bool_decide (reportPath = "") then
        AJSON StatusInternalServerError [("error", "report missing")]
      else
        match read with
        | ReadOpenErr =>
            AJSON StatusInternalServerError [("error", "cannot open report")]
        | ReadDecodeErr =>
            AJSON StatusInternalServerError [("error", "invalid report")]
        | ReadOk => ADecoded StatusOK reportPath
        end
  end.

(** [(s *Store) DownloadHandler]. *)
Definition DownloadHandler (id : string) (s : Store) : Answer :=
  match tasks s !! id with
  | None => not_found
  | Some t =>
    if negb (bool_decide (Status t = "Completed")) then
      ANoContent StatusAccepted
    else if negb (bool_decide (AnnotatedPath t = "")) then
      AFile (AnnotatedPath t)
    else if negb (bool_decide (ReportPath t = "")) then
      AFile (ReportPath t)
    else
      AJSON StatusInternalServerError [("error", "nothing to download")]
  end.

End handlers_main.

(** ** The files of a task *)



(** * Properties *)

(** ** The task store *)

Section store_facts.
Implicit Types (s : Store) (t : Task) (id : string).

Lemma GetTask_AddTask t s : GetTask (ID t) (AddTask t s) = Some t.
Proof. unfold GetTask, AddTask; simpl. apply lookup_insert_eq. Qed.

Lemma GetTask_AddTask_ne t s id :
  id ≠ ID t → GetTask id (AddTask t s) = GetTask id s.
Proof. intros Hne. unfold GetTask, AddTask; simpl. by apply lookup_insert_ne. Qed.

Lemma UpdateTask_Some id fn s t :
  tasks s !! id = Some t →
  UpdateTask id fn s = (mkStore (<[id := fn t]> (tasks s)), true).
Proof. intros H. unfold UpdateTask. by rewrite H. Qed.

Lemma UpdateTask_None id fn s :
  tasks s !! id = None → UpdateTask id fn s = (s, false).
Proof. intros H. unfold UpdateTask. by rewrite H. Qed.

(** [UpdateTask] touches the cell of [id] and no other. *)
Lemma UpdateTask_other id id' fn s :
  id' ≠ id → tasks (UpdateTask id fn s).1 !! id' = tasks s !! id'.
Proof.
  intros Hne. unfold UpdateTask.
  destruct (tasks s !! id); simpl; [|done].
  by apply lookup_insert_ne.
Qed.

(** [UpdateTask] neither adds nor removes a task. *)
Lemma UpdateTask_present id id' fn s :
  is_Some (tasks (UpdateTask id fn s).1 !! id') ↔ is_Some (tasks s !! id').
Proof.
  unfold UpdateTask. destruct (tasks s !! id) as [t|] eqn:E; simpl; [|done].
  destruct (decide (id' = id)) as [->|Hne].
  - rewrite lookup_insert_eq, E. split; eauto.
  - by rewrite lookup_insert_ne.
Qed.
End store_facts.

(** C7, as the code has it: [AddTask] cannot fail (it has no result) and
    makes the given task the record of its id, whether or not the id was
    already there; the records of all other ids stay as they were. *)
Theorem AddTask_replaces (t : Task) (s : Store) :
  GetTask (ID t) (AddTask t s) = Some t
  ∧ ∀ id, id ≠ ID t → GetTask id (AddTask t s) = GetTask id s.
Proof.
  split; [apply GetTask_AddTask|].
  intros id Hne. by apply GetTask_AddTask_ne.
Qed.

Lemma AddTask_replaces_witness :
  GetTask "t1" (AddTask (mkTask "t1" "Pending" 0 "a.docx" "" "") NewStore)
    = Some (mkTask "t1" "Pending" 0 "a.docx" "" "")
  ∧ GetTask "t2" (AddTask (mkTask "t1" "Pending" 0 "a.docx" "" "") NewStore)
    = GetTask "t2" NewStore.
Proof.
  destruct (AddTask_replaces (mkTask "t1" "Pending" 0 "a.docx" "" "") NewStore)
    as [H1 H2].
  split; [exact H1|]. apply H2. simpl. discriminate.
Defined.

(** C7, as stated, fails: adding a task under an id the store already has
    replaces the record that was there. *)
Lemma AddTask_duplicate_overwrites :
  let old := mkTask "t1" "Completed" 100 "a.docx" "a-annotated.docx" "a-report.json" in
  let new := mkTask "t1" "Pending" 0 "b.docx" "" "" in
  let s := AddTask old NewStore in
  GetTask "t1" s = Some old
  ∧ GetTask "t1" (AddTask new s) = Some new
  ∧ GetTask "t1" (AddTask new s) ≠ GetTask "t1" s.
Proof. vm_compute. repeat split; discriminate. Qed.

(** ** Intake *)

Section intake.
Implicit Types (g : Gateway) (c : Chan) (id : string).

Lemma try_send_room id c :
  (length (buf c) < cap c)%nat →
  try_send id c = Some (mkChan (buf c ++ [id]) (cap c) (sendq c)).
Proof. intros H. unfold try_send. by rewrite decide_True. Qed.

Lemma try_send_full id c :
  ¬ (length (buf c) < cap c)%nat → try_send id c = None.
Proof. intros H. unfold try_send. by rewrite decide_False. Qed.

(** The buffer never grows beyond its capacity. *)
Lemma try_send_bounded id c c' :
  try_send id c = Some c' → (length (buf c') ≤ cap c')%nat.
Proof.
  unfold try_send. case_decide; [|done].
  intros [= <-]; simpl. rewrite length_app; simpl. lia.
Qed.

(** A parked sender gets through as soon as the worker takes an id. *)
Lemma recv_admits_parked id c x rest :
  buf c = x :: rest → sendq c = [id] →
  recv c = Some (x, mkChan (rest ++ [id]) (cap c) []).
Proof. intros Hb Hq. unfold recv. by rewrite Hb, Hq. Qed.
End intake.

(** C9: the handler never waits for the worker.  An upload whose file
    steps succeed is answered with the task id in either case; with room
    in the queue the id is at its end at once and the task is [Pending];
    with a full queue the queue is as before, the task is [Queued] and
    the id waits in a sender of its own, which puts it at the end of the
    queue when the worker takes the next id. *)
Theorem UploadHandler_never_blocks (io : UploadIO) (id : string) (g : Gateway) :
  io_ok io →
  let '(resp, g') := UploadHandler io id g in
  let task st := Some (mkTask id st 0 (temp_docs (id +:+ ".docx")) "" "") in
  resp = JSON StatusAccepted [("task_id", id)]
  ∧ if decide (length (buf (g_tasks g)) < cap (g_tasks g))%nat
    then buf (g_tasks g') = buf (g_tasks g) ++ [id]
         ∧ sendq (g_tasks g') = sendq (g_tasks g)
         ∧ GetTask id (g_store g') = task "Pending"
    else buf (g_tasks g') = buf (g_tasks g)
         ∧ sendq (g_tasks g') = sendq (g_tasks g) ++ [id]
         ∧ GetTask id (g_store g') = task "Queued"
         ∧ ∀ x rest, buf (g_tasks g) = x :: rest → sendq (g_tasks g) = [] →
             recv (g_tasks g')
             = Some (x, mkChan (rest ++ [id]) (cap (g_tasks g)) []).
Proof.
  intros (Hf & Ho & Hc & Hy). unfold UploadHandler.
  rewrite Hf, Ho, Hc, Hy; simpl.
  case_decide as Hroom.
  - rewrite (try_send_room _ _ Hroom); simpl.
    split; [done|]. split; [done|]. split; [done|].
    unfold GetTask; simpl. apply lookup_insert_eq.
  - rewrite (try_send_full _ _ Hroom); simpl.
    split; [done|].
    unfold go_send. rewrite (try_send_full _ _ Hroom); simpl.
    split; [done|]. split; [done|]. split.
    + unfold GetTask, UpdateTask; simpl.
      rewrite lookup_insert_eq; simpl. apply lookup_insert_eq.
    + intros x rest Hb Hq.
      rewrite (recv_admits_parked id _ x rest); simpl; [done|done|].
      by rewrite Hq.
Qed.

Lemma UploadHandler_never_blocks_witness :
  let g := mkGateway NewStore (mkChan ["u0"] 1 []) in
  let '(resp, g') := UploadHandler (mkUploadIO true true true true) "u1" g in
  resp = JSON StatusAccepted [("task_id", "u1")]
  ∧ buf (g_tasks g') = ["u0"]
  ∧ sendq (g_tasks g') = ["u1"]
  ∧ GetTask "u1" (g_store g')
    = Some (mkTask "u1" "Queued" 0 "../temp_docs/u1.docx" "" "")
  ∧ ∀ x rest, ["u0"] = x :: rest → @nil string = [] →
      recv (g_tasks g') = Some (x, mkChan (rest ++ ["u1"]) 1 []).
Proof.
  pose proof (UploadHandler_never_blocks (mkUploadIO true true true true) "u1"
                (mkGateway NewStore (mkChan ["u0"] 1 []))) as H.
  simpl in H. apply H. repeat split.
Defined.

(** ** Running an iteration *)

Section monad_facts.
Context {A B : Type}.

Lemma bind_run (m : M A) (f : A → M B) (w : World) :
  (m ≫= f) w = match m w with
               | (Some a, w') => f a w'
               | (None, w') => (None, w')
               end.
Proof. reflexivity. Qed.

Lemma exec_bind (m : M A) (f : A → M B) (w : World) :
  exec (m ≫= f) w = match m w with
                    | (Some a, w') => exec (f a) w'
                    | (None, w') => w'
                    end.
Proof. unfold exec. rewrite bind_run. by destruct (m w) as [[a|] w']. Qed.
End monad_facts.

Section keeps.
Context (R : relation World) `{!Reflexive R, !Transitive R}.

Lemma keeps_ret {A} (a : A) : keeps R (mret a).
Proof. intros w. unfold exec; simpl. reflexivity. Qed.

Lemma keeps_continue {A} : keeps R (@continue A).
Proof. intros w. unfold exec; simpl. reflexivity. Qed.

Lemma keeps_get_task id : keeps R (get_task id).
Proof. intros w. unfold exec; simpl. reflexivity. Qed.

Lemma keeps_bind {A B} (m : M A) (f : A → M B) :
  keeps R m → (∀ a, keeps R (f a)) → keeps R (m ≫= f).
Proof.
  intros Hm Hf w. rewrite exec_bind.
  specialize (Hm w). unfold exec in Hm.
  destruct (m w) as [[a|] w']; simpl in Hm; [|done].
  etrans; [exact Hm|]. apply Hf.
Qed.

Lemma keeps_for_p fuel p (body : Z → M unit) :
  (∀ q, keeps R (body q)) → keeps R (worker_sim.for_p fuel p body).
Proof.
  intros Hb. revert p. induction fuel as [|n IH]; intros p; simpl.
  - apply keeps_ret.
  - case_decide; [|apply keeps_ret].
    apply keeps_bind; [apply Hb|]. intros _. apply IH.
Qed.
End keeps.

Lemma update_task_Some id fn w t :
  tasks (w_store w) !! id = Some t →
  update_task id fn w =
    (Some true,
     mkWorld (cell id (fn t) w) (w_history w ++ [cell id (fn t) w])
             (w_calls w) (w_files w)).
Proof. intros H. unfold update_task. by rewrite (UpdateTask_Some _ _ _ _ H). Qed.

Lemma update_task_None id fn w :
  tasks (w_store w) !! id = None → update_task id fn w = (Some false, w).
Proof.
  intros H. unfold update_task. rewrite (UpdateTask_None _ _ _ H).
  by destruct w.
Qed.

(** Unfolding of the steps of an iteration on a world whose store holds
    the task. *)
Ltac unfold_steps :=
  unfold exec, get_task, call, create_file, copyFile, writeReport, continue,
    worker_grpc.go_AuditRules, worker_grpc.go_AnalyzeSemantics,
    worker_main.assign, update_task, UpdateTask, GetTask;
  unfold mbind, M_bind, mret, M_ret; simpl.

Ltac use_outcomes :=
  repeat match goal with
         | H : ?x = _ |- context [?x] => rewrite H
         end.

Ltac run_steps :=
  unfold_steps;
  repeat (progress (use_outcomes; rewrite ?lookup_insert_eq; simpl));
  unfold cell; simpl;
  rewrite ?insert_insert_eq, <- ?app_assoc; simpl.

Module grpc_paths.
Import worker_grpc.

Section paths.
Context (id : string) (o : Outcome) (w : World) (t : Task).
Hypothesis Ht : tasks (w_store w) !! id = Some t.

(** The parser cannot be dialled. *)
Lemma parser_connect :
  parser_dial o = false →
  exec (process id o) w =
    let te := set_Status "Error: parser connect" (parsing_record t) in
    mkWorld (cell id te w)
            (w_history w ++ [cell id (parsing_record t) w; cell id te w])
            (w_calls w ++ [Dial Parser]) (w_files w).
Proof.
  intros Hd. destruct w as [s h c f]; simpl in *.
  unfold process. run_steps. reflexivity.
Qed.

(** [ParseDocument] answers with an error. *)
Lemma parse_error :
  parser_dial o = true → parse_document o = None →
  exec (process id o) w =
    let te := set_Status "Error: parse" (parsing_record t) in
    mkWorld (cell id te w)
            (w_history w ++ [cell id (parsing_record t) w; cell id te w])
            (w_calls w ++ [Dial Parser; ParseDocument (SourcePath t)])
            (w_files w).
Proof.
  intros Hd Hp. destruct w as [s h c f]; simpl in *.
  unfold process. run_steps. reflexivity.
Qed.

(** The engine cannot be dialled. *)
Lemma engine_connect parsed :
  parser_dial o = true → parse_document o = Some parsed →
  engine_dial o = false →
  exec (process id o) w =
    let te := set_Status "Error: engine connect" (auditing_record t) in
    mkWorld (cell id te w)
            (w_history w ++ [cell id (parsing_record t) w;
                             cell id (auditing_record t) w; cell id te w])
            (w_calls w ++ [Dial Parser; ParseDocument (SourcePath t); Dial Engine])
            (w_files w).
Proof.
  intros Hd Hp He. destruct w as [s h c f]; simpl in *.
  unfold process. run_steps. reflexivity.
Qed.

(** The inference service cannot be dialled. *)
Lemma inference_connect parsed :
  parser_dial o = true → parse_document o = Some parsed →
  engine_dial o = true → inference_dial o = false →
  exec (process id o) w =
    let te := set_Status "Error: inference connect" (auditing_record t) in
    mkWorld (cell id te w)
            (w_history w ++ [cell id (parsing_record t) w;
                             cell id (auditing_record t) w; cell id te w])
            (w_calls w ++ [Dial Parser; ParseDocument (SourcePath t);
                           Dial Engine; Dial Inference])
            (w_files w).
Proof.
  intros Hd Hp He Hi. destruct w as [s h c f]; simpl in *.
  unfold process. run_steps. reflexivity.
Qed.

(** All three services are reached. *)
Lemma completed parsed :
  parser_dial o = true → parse_document o = Some parsed →
  engine_dial o = true → inference_dial o = true →
  exec (process id o) w =
    let rule := delivered (audit_rules o) in
    let sem := delivered (analyze_semantics o) in
    mkWorld (cell id (completed_record t) w)
            (w_history w ++ [cell id (parsing_record t) w;
                             cell id (auditing_record t) w;
                             cell id (completed_record t) w])
            (w_calls w ++ [Dial Parser; ParseDocument (SourcePath t);
                           Dial Engine; Dial Inference;
                           AuditRules parsed; AnalyzeSemantics (Sections parsed);
                           CopyFile (SourcePath t) (annotated_of t);
                           WriteReport (report_of t) id
                                       (Issues rule ++ Issues sem)])
            (with_file (report_creates (write_report o)) (report_of t)
               (with_file (copy_creates (copy_file o)) (annotated_of t)
                          (w_files w))).
Proof.
  intros Hd Hp He Hi. destruct w as [s h c f]; simpl in *.
  unfold process. run_steps. reflexivity.
Qed.
End paths.

End grpc_paths.

(** The audit loop runs its body for 50, 60, 70, 80 and 90, and it is the
    guard [p <= 90] which ends it: more fuel changes nothing. *)
Lemma audit_loop_rounds (body : Z → M unit) :
  worker_sim.audit_loop body
  = (body 50;; body 60;; body 70;; body 80;; body 90;; mret tt).
Proof. reflexivity. Qed.

Lemma audit_loop_fuel (k : nat) (body : Z → M unit) :
  worker_sim.for_p (6 + k) 50 body = worker_sim.audit_loop body.
Proof. reflexivity. Qed.

Module sim_paths.

Section paths.
Context (id : string) (o : Outcome) (w : World) (t : Task).
Hypothesis Ht : tasks (w_store w) !! id = Some t.

(** The simulated worker of package [worker]. *)
Lemma sim_run : exec (worker_sim.process id o) w = sim_after_run id o w t.
Proof.
  unfold sim_after_run, sim_stages. destruct w as [s h c f]; simpl in *.
  unfold worker_sim.process. rewrite audit_loop_rounds. run_steps. reflexivity.
Qed.

(** The first worker, of package [main]. *)
Lemma main_run : exec (worker_main.process id o) w = sim_after_run id o w t.
Proof.
  unfold sim_after_run, sim_stages. destruct w as [s h c f]; simpl in *.
  unfold worker_main.process. rewrite audit_loop_rounds. run_steps. reflexivity.
Qed.
End paths.

End sim_paths.

(** ** An id without a record *)

Section absent.
Context (id : string) (o : Outcome) (w : World).
Hypothesis Hnone : tasks (w_store w) !! id = None.

Lemma grpc_absent : worker_grpc.process id o w = (None, w).
Proof. unfold worker_grpc.process. unfold_steps. by rewrite Hnone. Qed.

Lemma sim_absent : worker_sim.process id o w = (None, w).
Proof.
  unfold worker_sim.process. rewrite bind_run.
  by rewrite (update_task_None _ _ _ Hnone).
Qed.

Lemma main_absent : worker_main.process id o w = (None, w).
Proof. unfold worker_main.process. unfold_steps. by rewrite Hnone. Qed.
End absent.

(** C10: when the store has no record for the id received, the iteration
    leaves the world as it is (no store mutation, no call, no file) and
    the worker goes on with the ids that follow; so for the gRPC worker,
    the simulated one and the first one. *)
Theorem unknown_id_is_skipped (id : string) (o : Outcome)
    (rest : list (string * Outcome)) (w : World) :
  tasks (w_store w) !! id = None →
  (exec (worker_grpc.process id o) w = w
   ∧ worker_grpc.Worker ((id, o) :: rest) w = worker_grpc.Worker rest w)
  ∧ (exec (worker_sim.process id o) w = w
     ∧ worker_sim.Worker ((id, o) :: rest) w = worker_sim.Worker rest w)
  ∧ (exec (worker_main.process id o) w = w
     ∧ worker_main.Worker ((id, o) :: rest) w = worker_main.Worker rest w).
Proof.
  intros Hnone.
  unfold worker_grpc.Worker, worker_sim.Worker, worker_main.Worker; simpl.
  unfold exec.
  rewrite (grpc_absent id o w Hnone), (sim_absent id o w Hnone),
    (main_absent id o w Hnone).
  done.
Qed.

Lemma unknown_id_is_skipped_witness :
  let o := mkOutcome true None true true None None CopyDone ReportDone in
  let w := start NewStore in
  (exec (worker_grpc.process "ghost" o) w = w
   ∧ worker_grpc.Worker [("ghost", o)] w = worker_grpc.Worker [] w)
  ∧ (exec (worker_sim.process "ghost" o) w = w
     ∧ worker_sim.Worker [("ghost", o)] w = worker_sim.Worker [] w)
  ∧ (exec (worker_main.process "ghost" o) w = w
     ∧ worker_main.Worker [("ghost", o)] w = worker_main.Worker [] w).
Proof.
  apply (unknown_id_is_skipped "ghost"
           (mkOutcome true None true true None None CopyDone ReportDone)
           [] (start NewStore)).
  reflexivity.
Defined.

(** ** What an iteration leaves alone *)

#[local] Instance untouched_refl id' : Reflexive (untouched id').
Proof. intros w. split; [done|]. exists []. by rewrite app_nil_r. Qed.

#[local] Instance untouched_trans id' : Transitive (untouched id').
Proof.
  intros w1 w2 w3 (H12 & hs1 & Hh1 & Hf1) (H23 & hs2 & Hh2 & Hf2).
  split; [congruence|].
  exists (hs1 ++ hs2). split.
  - by rewrite Hh2, Hh1, app_assoc.
  - apply Forall_app. split; [done|].
    eapply Forall_impl; [exact Hf2|]. simpl. congruence.
Qed.

#[local] Instance same_ids_refl : Reflexive same_ids.
Proof. by intros w i. Qed.

#[local] Instance same_ids_trans : Transitive same_ids.
Proof. intros w1 w2 w3 H12 H23 i. etrans; [apply H23 | apply H12]. Qed.

Section primitives.
Context (id' : string).

Lemma untouched_update_task id fn :
  id ≠ id' → keeps (untouched id') (update_task id fn).
Proof.
  intros Hne w. unfold exec, update_task.
  pose proof (UpdateTask_other id id' fn (w_store w) (not_eq_sym Hne)) as Ho.
  destruct (UpdateTask id fn (w_store w)) as [s' ok]; simpl in *.
  split; [done|]. destruct ok.
  - exists [s']. split; [done|]. by constructor.
  - exists []. by rewrite app_nil_r.
Qed.

Lemma untouched_call c : keeps (untouched id') (call c).
Proof. intros w. unfold exec; simpl. split; [done|]. exists []. by rewrite app_nil_r. Qed.

Lemma untouched_create_file made path :
  keeps (untouched id') (create_file made path).
Proof. intros w. unfold exec; simpl. split; [done|]. exists []. by rewrite app_nil_r. Qed.

Lemma same_ids_update_task id fn : keeps same_ids (update_task id fn).
Proof.
  intros w i. unfold exec, update_task.
  pose proof (UpdateTask_present id i fn (w_store w)) as Hp.
  by destruct (UpdateTask id fn (w_store w)) as [s' ok].
Qed.

Lemma same_ids_call c : keeps same_ids (call c).
Proof. by intros w i. Qed.

Lemma same_ids_create_file made path : keeps same_ids (create_file made path).
Proof. by intros w i. Qed.
End primitives.

(** Going through a computation step by step; [prim] settles the steps
    which touch the world. *)
Ltac keeps_steps prim :=
  repeat first
    [ tc_solve
    | apply keeps_ret
    | apply keeps_continue
    | apply keeps_get_task
    | prim
    | apply keeps_bind
    | match goal with
      | |- ∀ _, _ => intros ?
      | |- keeps _ (match ?x with _ => _ end) => destruct x
      end ].

Ltac unfold_process :=
  unfold worker_grpc.process, worker_sim.process, worker_main.process,
    worker_grpc.go_AuditRules, worker_grpc.go_AnalyzeSemantics,
    worker_sim.audit_loop, worker_main.assign, copyFile, writeReport.

Section frame.
Context (id id' : string) (o : Outcome).
Hypothesis Hne : id ≠ id'.

Local Ltac untouched_prim :=
  first [ apply untouched_call
        | apply untouched_create_file
        | apply untouched_update_task; assumption ].

Lemma grpc_untouched : keeps (untouched id') (worker_grpc.process id o).
Proof. unfold_process. keeps_steps untouched_prim. Qed.

Lemma sim_untouched : keeps (untouched id') (worker_sim.process id o).
Proof.
  unfold_process. keeps_steps ltac:(first [untouched_prim | apply keeps_for_p]).
Qed.

Lemma main_untouched : keeps (untouched id') (worker_main.process id o).
Proof.
  unfold_process. keeps_steps ltac:(first [untouched_prim | apply keeps_for_p]).
Qed.
End frame.

Lemma grpc_same_ids id o : keeps same_ids (worker_grpc.process id o).
Proof.
  unfold_process.
  keeps_steps ltac:(first [ apply same_ids_call
                          | apply same_ids_create_file
                          | apply same_ids_update_task ]).
Qed.

(** ** The loop over the ids *)

Section for_range_facts.
Context (body : string → Outcome → M unit).

Lemma for_range_app jobs1 jobs2 w :
  for_range body (jobs1 ++ jobs2) w
  = for_range body jobs2 (for_range body jobs1 w).
Proof.
  revert w. induction jobs1 as [|[id o] jobs1 IH]; intros w; simpl; [done|].
  apply IH.
Qed.

Lemma for_range_keeps (R : relation World) `{!Reflexive R, !Transitive R}
    (P : string → Prop) jobs w :
  (∀ id o, P id → keeps R (body id o)) →
  Forall P jobs.*1 →
  R w (for_range body jobs w).
Proof.
  intros Hbody. revert w.
  induction jobs as [|[id o] jobs IH]; intros w Hall; simpl; [done|].
  apply Forall_cons in Hall as [Hid Hall].
  etrans; [apply (Hbody id o Hid)|]. by apply IH.
Qed.

(** Ids other than [id'] leave the record of [id'] alone. *)
Lemma for_range_untouched id' jobs w :
  (∀ id o, id ≠ id' → keeps (untouched id') (body id o)) →
  id' ∉ jobs.*1 →
  untouched id' w (for_range body jobs w).
Proof.
  intros Hbody Hnot.
  apply (for_range_keeps (untouched id') (λ id, id ≠ id')); [done|].
  apply Forall_forall. intros id Hin ->. done.
Qed.
End for_range_facts.

(** ** The history of a field *)

Section field_history_facts.
Context {A : Type} (f : Task → A) (id : string).

Lemma omap_field_const (t : Task) (hs : list Store) :
  Forall (λ s, tasks s !! id = Some t) hs →
  Forall (λ a, a = f t) (omap (field_of f id) hs).
Proof.
  induction 1 as [|s hs Hs _ IH]; simpl; [constructor|].
  unfold field_of at 1. rewrite Hs; simpl. by constructor.
Qed.

Lemma omap_field_cells (w : World) (ts : list Task) :
  omap (field_of f id) ((λ t, cell id t w) <$> ts) = f <$> ts.
Proof.
  induction ts as [|t ts IH]; simpl; [done|].
  unfold field_of at 1; simpl. rewrite lookup_insert_eq; simpl.
  f_equal. exact IH.
Qed.
End field_history_facts.

(** A run of equal values, an ascending stretch between the bounds, and a
    run of equal values again. *)
Lemma ascending_between (lo hi : Z) (a b c : list Z) :
  Forall (λ z, z = lo) a → Forall (λ z, z = hi) c →
  StronglySorted Z.le b → Forall (λ z, lo ≤ z ≤ hi) b → lo ≤ hi →
  Sorted Z.le (a ++ b ++ c).
Proof.
  intros Ha Hc Hb Hbd Hle.
  apply StronglySorted_Sorted.
  rewrite Forall_forall in Ha, Hc, Hbd.
  assert (Hconst : ∀ v l, (∀ z, z ∈ l → z = v) → StronglySorted Z.le l).
  { intros v l. induction l as [|x l IH]; intros Hl; constructor.
    - apply IH. intros z Hz. apply Hl. by right.
    - apply Forall_forall. intros z Hz.
      rewrite (Hl x), (Hl z); [lia| by right | by left]. }
  apply StronglySorted_app_2.
  - intros x y Hx Hy. apply Ha in Hx. apply elem_of_app in Hy as [Hy|Hy].
    + apply Hbd in Hy. lia.
    + apply Hc in Hy. lia.
  - by apply (Hconst lo).
  - apply StronglySorted_app_2; [| done | by apply (Hconst hi)].
    intros x y Hx Hy. apply Hbd in Hx. apply Hc in Hy. lia.
Qed.

(** ** The run around one task *)

Section whole_run.
Context (body : string → Outcome → M unit).
Hypothesis body_frame :
  ∀ id id' o, id ≠ id' → keeps (untouched id') (body id o).

Context (s : Store) (id : string) (t : Task) (o : Outcome)
        (pre post : list (string * Outcome)).
Hypothesis Ht : tasks s !! id = Some t.
Hypothesis Hpre : id ∉ pre.*1.
Hypothesis Hpost : id ∉ post.*1.

(** The run splits in three: the ids before, which leave the record as
    the upload made it; the iteration for [id]; the ids after, which
    leave the record as that iteration left it. *)
Lemma for_range_split :
  let w1 := for_range body pre (start s) in
  let w2 := exec (body id o) w1 in
  let w3 := for_range body (pre ++ (id, o) :: post) (start s) in
  tasks (w_store w1) !! id = Some t
  ∧ (∃ hs1, w_history w1 = s :: hs1
            ∧ Forall (λ s', tasks s' !! id = Some t) hs1)
  ∧ tasks (w_store w3) !! id = tasks (w_store w2) !! id
  ∧ (∃ hs3, w_history w3 = w_history w2 ++ hs3
            ∧ Forall (λ s', tasks s' !! id = tasks (w_store w2) !! id) hs3).
Proof.
  intros w1 w2 w3.
  destruct (for_range_untouched body id pre (start s))
    as (Hs1 & hs1 & Hh1 & Hf1); [by intros; apply body_frame | done |].
  fold w1 in Hs1, Hh1. simpl in Hs1, Hh1, Hf1. rewrite Ht in Hs1, Hf1.
  destruct (for_range_untouched body id post w2)
    as (Hs3 & hs3 & Hh3 & Hf3); [by intros; apply body_frame | done |].
  assert (w3 = for_range body post w2) as ->.
  { unfold w3. by rewrite for_range_app. }
  eauto 10.
Qed.
End whole_run.

(** ** Progress along a run of the worker *)

Section monotone.
Context (body : string → Outcome → M unit) (lo : Z).

Hypothesis body_frame :
  ∀ id id' o, id ≠ id' → keeps (untouched id') (body id o).

(** What an iteration does to the progress of a task which has not got
    beyond [lo]: the values it stores ascend, none below the one it
    found and none above the one it leaves. *)
Hypothesis body_steps : ∀ id o w t,
  tasks (w_store w) !! id = Some t → Progress t ≤ lo →
  ∃ ts tf,
    w_history (exec (body id o) w) = w_history w ++ ((λ t', cell id t' w) <$> ts)
    ∧ tasks (w_store (exec (body id o) w)) !! id = Some tf
    ∧ StronglySorted Z.le (Progress <$> ts)
    ∧ Forall (λ z, Progress t ≤ z ≤ Progress tf) (Progress <$> ts)
    ∧ Progress t ≤ Progress tf.

Lemma for_range_monotone s id t pre o post :
  tasks s !! id = Some t → Progress t ≤ lo →
  id ∉ pre.*1 → id ∉ post.*1 →
  Sorted Z.le
    (progress_history id (for_range body (pre ++ (id, o) :: post) (start s))).
Proof.
  intros Ht Hp Hpre Hpost.
  destruct (for_range_split body body_frame s id t o pre post Ht Hpre Hpost)
    as (Hs1 & (hs1 & Hh1 & Hf1) & _ & (hs3 & Hh3 & Hf3)).
  set (w1 := for_range body pre (start s)) in *.
  destruct (body_steps id o w1 t Hs1 Hp)
    as (ts & tf & Hh2 & Hs2 & Hsorted & Hbd & Hle).
  rewrite Hs2 in Hf3.
  unfold progress_history, field_history. rewrite Hh3, Hh2, Hh1.
  rewrite !omap_app.
  rewrite (omap_field_cells Progress id w1 ts), <- !app_assoc.
  apply (ascending_between (Progress t) (Progress tf)); [| |done..].
  - apply omap_field_const. by constructor.
  - by apply omap_field_const.
Qed.
End monotone.

(** The five ways an iteration of the gRPC worker can go. *)
Ltac grpc_cases id o w t Ht :=
  let Hd := fresh "Hd" in
  let Hp := fresh "Hp" in
  let He := fresh "He" in
  let Hi := fresh "Hi" in
  let parsed := fresh "parsed" in
  destruct (parser_dial o) eqn:Hd;
    [ destruct (parse_document o) as [parsed|] eqn:Hp;
      [ destruct (engine_dial o) eqn:He;
        [ destruct (inference_dial o) eqn:Hi;
          [ rewrite (grpc_paths.completed id o w t Ht parsed Hd Hp He Hi)
          | rewrite (grpc_paths.inference_connect id o w t Ht parsed Hd Hp He Hi) ]
        | rewrite (grpc_paths.engine_connect id o w t Ht parsed Hd Hp He) ]
      | rewrite (grpc_paths.parse_error id o w t Ht Hd Hp) ]
    | rewrite (grpc_paths.parser_connect id o w t Ht Hd) ];
  cbv zeta.

(** The tasks an iteration stores one after the other, given as a list. *)
Ltac stored_tasks ts :=
  exists ts; eexists; simpl;
  split; [reflexivity|];
  split; [apply lookup_insert_eq|]; simpl.

Lemma grpc_steps id o w t :
  tasks (w_store w) !! id = Some t → Progress t ≤ 5 →
  ∃ ts tf,
    w_history (exec (worker_grpc.process id o) w)
      = w_history w ++ ((λ t', cell id t' w) <$> ts)
    ∧ tasks (w_store (exec (worker_grpc.process id o) w)) !! id = Some tf
    ∧ StronglySorted Z.le (Progress <$> ts)
    ∧ Forall (λ z, Progress t ≤ z ≤ Progress tf) (Progress <$> ts)
    ∧ Progress t ≤ Progress tf.
Proof.
  intros Ht Hp.
  set (t1 := parsing_record t). set (t2 := auditing_record t).
  grpc_cases id o w t Ht.
  - stored_tasks [t1; t2; completed_record t].
    split_and!; [repeat constructor; lia | repeat constructor; lia | lia].
  - stored_tasks [t1; t2; set_Status "Error: inference connect" t2].
    split_and!; [repeat constructor; lia | repeat constructor; lia | lia].
  - stored_tasks [t1; t2; set_Status "Error: engine connect" t2].
    split_and!; [repeat constructor; lia | repeat constructor; lia | lia].
  - stored_tasks [t1; set_Status "Error: parse" t1].
    split_and!; [repeat constructor; lia | repeat constructor; lia | lia].
  - stored_tasks [t1; set_Status "Error: parser connect" t1].
    split_and!; [repeat constructor; lia | repeat constructor; lia | lia].
Qed.

Lemma sim_steps (body : string → Outcome → M unit) id o w t :
  (∀ t', tasks (w_store w) !! id = Some t' →
         exec (body id o) w = sim_after_run id o w t') →
  tasks (w_store w) !! id = Some t → Progress t ≤ 10 →
  ∃ ts tf,
    w_history (exec (body id o) w) = w_history w ++ ((λ t', cell id t' w) <$> ts)
    ∧ tasks (w_store (exec (body id o) w)) !! id = Some tf
    ∧ StronglySorted Z.le (Progress <$> ts)
    ∧ Forall (λ z, Progress t ≤ z ≤ Progress tf) (Progress <$> ts)
    ∧ Progress t ≤ Progress tf.
Proof.
  intros Hrun Ht Hp. rewrite (Hrun t Ht). unfold sim_after_run.
  stored_tasks (sim_stages id t).
  split_and!; [repeat constructor; lia | repeat constructor; lia | lia].
Qed.

(** ** A task from its upload to the end of the run *)

(** The record an accepted upload leaves in the store. *)
Lemma upload_creates (io : UploadIO) (id : string) (g : Gateway) :
  io_ok io →
  ∃ st, (st = "Pending" ∨ st = "Queued")
        ∧ tasks (g_store (UploadHandler io id g).2) !! id
          = Some (mkTask id st 0 (temp_docs (id +:+ ".docx")) "" "").
Proof.
  intros (Hf & Ho & Hc & Hy). unfold UploadHandler.
  rewrite Hf, Ho, Hc, Hy; simpl.
  destruct (try_send id (g_tasks g)); simpl.
  - exists "Pending". split; [by left|]. apply lookup_insert_eq.
  - exists "Queued". split; [by right|].
    unfold UpdateTask; simpl. rewrite lookup_insert_eq; simpl.
    apply lookup_insert_eq.
Qed.

(** C6: from the upload that creates a task to the end of the run of the
    worker, whatever ids are processed before and after and whatever the
    services answer, the values [progress] takes for the task never
    decrease; so for the gRPC worker, the simulated one and the first
    one. *)
Theorem progress_never_decreases (io : UploadIO) (id : string) (g : Gateway)
    (pre post : list (string * Outcome)) (o : Outcome) :
  io_ok io → id ∉ pre.*1 → id ∉ post.*1 →
  let s := g_store (UploadHandler io id g).2 in
  let jobs := pre ++ (id, o) :: post in
  Sorted Z.le (progress_history id (worker_grpc.Worker jobs (start s)))
  ∧ Sorted Z.le (progress_history id (worker_sim.Worker jobs (start s)))
  ∧ Sorted Z.le (progress_history id (worker_main.Worker jobs (start s))).
Proof.
  intros Hio Hpre Hpost s jobs.
  destruct (upload_creates io id g Hio) as (st & _ & Hs). fold s in Hs.
  split_and!.
  - eapply (for_range_monotone worker_grpc.process 5); [| |exact Hs| |done..].
    + intros. by apply grpc_untouched.
    + intros. by apply grpc_steps.
    + simpl. lia.
  - eapply (for_range_monotone worker_sim.process 10); [| |exact Hs| |done..].
    + intros. by apply sim_untouched.
    + intros ???? Hpresent ?. apply sim_steps; [|done..].
      intros. by apply sim_paths.sim_run.
    + simpl. lia.
  - eapply (for_range_monotone worker_main.process 10); [| |exact Hs| |done..].
    + intros. by apply main_untouched.
    + intros ???? Hpresent ?. apply sim_steps; [|done..].
      intros. by apply sim_paths.main_run.
    + simpl. lia.
Qed.

Lemma all_ok_io_ok : io_ok all_ok.
Proof. by repeat split. Defined.

Lemma not_in_singleton (x y : string) : x ≠ y → x ∉ [y].
Proof.
  intros Hne Hin. apply list_elem_of_singleton in Hin. done.
Defined.

Lemma progress_never_decreases_witness :
  let o := sample_outcome [] [] in
  let s := g_store (UploadHandler all_ok "u1" sample_gateway).2 in
  let jobs := [("u0", o); ("u1", o); ("u2", o)] in
  Sorted Z.le (progress_history "u1" (worker_grpc.Worker jobs (start s)))
  ∧ Sorted Z.le (progress_history "u1" (worker_sim.Worker jobs (start s)))
  ∧ Sorted Z.le (progress_history "u1" (worker_main.Worker jobs (start s))).
Proof.
  apply (progress_never_decreases all_ok "u1" sample_gateway
           [("u0", sample_outcome [] [])] [("u2", sample_outcome [] [])]
           (sample_outcome [] [])).
  - exact all_ok_io_ok.
  - apply not_in_singleton. discriminate.
  - apply not_in_singleton. discriminate.
Defined.

(** ** The parse stage *)

(** C5: a task whose parse stage fails ends in [Error: parser connect] or
    [Error: parse], with progress 5 and both paths as empty as the upload
    made them; the iteration stops there (after the one dial, or the one
    dial and the one parse call, no further call and no file), and the
    ids processed afterwards leave the record as it is: nothing retries. *)
Theorem parse_failure_is_fatal (io : UploadIO) (id : string) (g : Gateway)
    (pre post : list (string * Outcome)) (o : Outcome) :
  io_ok io → id ∉ pre.*1 → id ∉ post.*1 → parse_fails o →
  let s := g_store (UploadHandler io id g).2 in
  let w1 := worker_grpc.Worker pre (start s) in
  let w2 := exec (worker_grpc.process id o) w1 in
  let w3 := worker_grpc.Worker (pre ++ (id, o) :: post) (start s) in
  ∃ tf,
    tasks (w_store w2) !! id = Some tf
    ∧ (Status tf = "Error: parser connect" ∨ Status tf = "Error: parse")
    ∧ is_error (Status tf) = true
    ∧ Progress tf ≤ 5
    ∧ AnnotatedPath tf = "" ∧ ReportPath tf = ""
    ∧ (w_calls w2 = w_calls w1 ++ [Dial Parser]
       ∨ w_calls w2 = w_calls w1 ++ [Dial Parser; ParseDocument (SourcePath tf)])
    ∧ w_files w2 = w_files w1
    ∧ tasks (w_store w3) !! id = Some tf.
Proof.
  intros Hio Hpre Hpost Hfail s w1 w2 w3.
  destruct (upload_creates io id g Hio) as (st & _ & Hs). fold s in Hs.
  destruct (for_range_split worker_grpc.process
              (λ i i' o' Hne, grpc_untouched i i' o' Hne)
              s id _ o pre post Hs Hpre Hpost) as (Hs1 & _ & Hs3 & _).
  change (for_range worker_grpc.process pre (start s)) with w1 in Hs1, Hs3.
  change (tasks (w_store w3) !! id = tasks (w_store w2) !! id) in Hs3.
  rewrite Hs3. subst w2. clear Hs3.
  destruct (parser_dial o) eqn:Hd.
  - destruct Hfail as [Hfail|Hfail]; [congruence|].
    rewrite (grpc_paths.parse_error id o w1 _ Hs1 Hd Hfail); simpl.
    eexists. split; [apply lookup_insert_eq|]. simpl.
    split_and!; first [done | lia | by right | apply lookup_insert_eq].
  - rewrite (grpc_paths.parser_connect id o w1 _ Hs1 Hd); simpl.
    eexists. split; [apply lookup_insert_eq|]. simpl.
    split_and!; first [done | lia | by left | apply lookup_insert_eq].
Qed.

Lemma parse_failure_is_fatal_witness :
  let o := mkOutcome false None true true None None CopyDone ReportDone in
  let s := g_store (UploadHandler all_ok "u1" sample_gateway).2 in
  let w2 := exec (worker_grpc.process "u1" o) (start s) in
  let w3 := worker_grpc.Worker [("u1", o); ("u2", o)] (start s) in
  ∃ tf,
    tasks (w_store w2) !! "u1" = Some tf
    ∧ (Status tf = "Error: parser connect" ∨ Status tf = "Error: parse")
    ∧ is_error (Status tf) = true
    ∧ Progress tf ≤ 5
    ∧ AnnotatedPath tf = "" ∧ ReportPath tf = ""
    ∧ (w_calls w2 = [Dial Parser]
       ∨ w_calls w2 = [Dial Parser; ParseDocument (SourcePath tf)])
    ∧ w_files w2 = ∅
    ∧ tasks (w_store w3) !! "u1" = Some tf.
Proof.
  apply (parse_failure_is_fatal all_ok "u1" sample_gateway []
           [("u2", mkOutcome false None true true None None CopyDone ReportDone)]
           (mkOutcome false None true true None None CopyDone ReportDone)).
  - exact all_ok_io_ok.
  - apply not_elem_of_nil.
  - apply not_in_singleton. discriminate.
  - by left.
Defined.

(** ** The issues of the report *)

Import worker_grpc.

Lemma reported_issues_app id w cs :
  omap (report_for id) (w_calls w ++ cs)
  = reported_issues id w ++ omap (report_for id) cs.
Proof. by rewrite omap_app. Qed.

Lemma reaches_audit_true o :
  reaches_audit o = true →
  ∃ parsed, parser_dial o = true ∧ parse_document o = Some parsed
            ∧ engine_dial o = true ∧ inference_dial o = true.
Proof.
  unfold reaches_audit. rewrite !andb_true_iff, bool_decide_eq_true.
  intros [[[Hd [parsed Hp]] He] Hi]. eauto.
Qed.

Lemma reaches_audit_intro o parsed :
  parser_dial o = true → parse_document o = Some parsed →
  engine_dial o = true → inference_dial o = true →
  reaches_audit o = true.
Proof.
  intros Hd Hp He Hi. unfold reaches_audit.
  rewrite !andb_true_iff, bool_decide_eq_true. rewrite Hp. eauto.
Qed.

(** What the worker hands to [WriteReport] when the audit stage is
    reached: what the rule engine delivered, then what the inference
    service delivered. *)
Lemma grpc_report id o w t :
  tasks (w_store w) !! id = Some t → reaches_audit o = true →
  reported_issues id (exec (process id o) w)
  = reported_issues id w
    ++ [Issues (delivered (audit_rules o))
        ++ Issues (delivered (analyze_semantics o))].
Proof.
  intros Ht (parsed & Hd & Hp & He & Hi)%reaches_audit_true.
  rewrite (grpc_paths.completed id o w t Ht parsed Hd Hp He Hi); cbv zeta.
  unfold reported_issues at 1; simpl. rewrite reported_issues_app; simpl.
  by rewrite decide_True.
Qed.

(** C1, as the code has it: the list written to the report is the rule
    engine's issues followed by the inference service's, nothing merged
    and nothing dropped; it has one issue per (section_id, code) at most
    exactly when no key occurs twice in either input or in both. *)
Theorem report_concatenates_issues (id : string) (o : Outcome) (w : World) (t : Task) :
  tasks (w_store w) !! id = Some t → reaches_audit o = true →
  let rule := Issues (delivered (audit_rules o)) in
  let sem := Issues (delivered (analyze_semantics o)) in
  ∃ l, reported_issues id (exec (process id o) w) = reported_issues id w ++ [l]
       ∧ l = rule ++ sem
       ∧ length l = (length rule + length sem)%nat
       ∧ (NoDup (issue_key <$> l)
          ↔ NoDup (issue_key <$> rule) ∧ NoDup (issue_key <$> sem)
            ∧ ∀ i j, i ∈ rule → j ∈ sem → issue_key i ≠ issue_key j).
Proof.
  intros Ht Hr rule sem. exists (rule ++ sem).
  split; [by apply (grpc_report id o w t)|].
  split; [done|]. split; [apply length_app|].
  rewrite fmap_app, NoDup_app. split.
  - intros (H1 & H2 & H3). split_and!; [done|done|].
    intros i j Hi Hj Heq. apply (H2 (issue_key i)).
    + by apply list_elem_of_fmap_2.
    + rewrite Heq. by apply list_elem_of_fmap_2.
  - intros (H1 & H3 & H2). split_and!; [done| |done].
    intros k (i & -> & Hi)%list_elem_of_fmap (j & Heq & Hj)%list_elem_of_fmap.
    by apply (H2 i j).
Qed.

Lemma report_concatenates_issues_witness :
  let rule := [sample_issue 2 "ERR_FONT_001" MEDIUM] in
  let sem := [sample_issue 2 "ERR_FONT_001" CRITICAL] in
  let s := g_store (UploadHandler all_ok "u1" sample_gateway).2 in
  ∃ l, reported_issues "u1"
         (exec (process "u1" (sample_outcome rule sem)) (start s)) = [] ++ [l]
       ∧ l = rule ++ sem
       ∧ length l = 2%nat
       ∧ (NoDup (issue_key <$> l)
          ↔ NoDup (issue_key <$> rule) ∧ NoDup (issue_key <$> sem)
            ∧ ∀ i j, i ∈ rule → j ∈ sem → issue_key i ≠ issue_key j).
Proof.
  eapply (report_concatenates_issues "u1"
            (sample_outcome [sample_issue 2 "ERR_FONT_001" MEDIUM]
                            [sample_issue 2 "ERR_FONT_001" CRITICAL])
            (start (g_store (UploadHandler all_ok "u1" sample_gateway).2))).
  - vm_compute. reflexivity.
  - reflexivity.
Defined.

(** C1, as stated, fails: the rule engine and the inference service both
    report ERR_FONT_001 on section 2, one MEDIUM and one CRITICAL, and the
    report holds the two of them, the MEDIUM one first. *)
Lemma duplicate_key_reported_twice :
  let rule := [sample_issue 2 "ERR_FONT_001" MEDIUM] in
  let sem := [sample_issue 2 "ERR_FONT_001" CRITICAL] in
  let s := g_store (UploadHandler all_ok "u1" sample_gateway).2 in
  let w := exec (process "u1" (sample_outcome rule sem)) (start s) in
  reported_issues "u1" w
    = [[sample_issue 2 "ERR_FONT_001" MEDIUM; sample_issue 2 "ERR_FONT_001" CRITICAL]]
  ∧ ∀ l, l ∈ reported_issues "u1" w → ¬ NoDup (issue_key <$> l).
Proof.
  assert (Hrun : reported_issues "u1"
            (exec (process "u1"
               (sample_outcome [sample_issue 2 "ERR_FONT_001" MEDIUM]
                               [sample_issue 2 "ERR_FONT_001" CRITICAL]))
               (start (g_store (UploadHandler all_ok "u1" sample_gateway).2)))
          = [[sample_issue 2 "ERR_FONT_001" MEDIUM;
              sample_issue 2 "ERR_FONT_001" CRITICAL]])
    by (vm_compute; reflexivity).
  cbv zeta. rewrite Hrun. split; [done|].
  intros l ->%list_elem_of_singleton. simpl.
  rewrite NoDup_cons. intros [Hnin _]. apply Hnin. by left.
Qed.

Lemma by_section_app (l k : list Issue) :
  by_section (l ++ k)
  ↔ by_section l ∧ by_section k
    ∧ ∀ i j, i ∈ l → j ∈ k → section_id i ≤ section_id j.
Proof.
  unfold by_section. rewrite fmap_app. split.
  - intros H. apply (sorting.Sorted_StronglySorted Z.le) in H.
    apply StronglySorted_app in H as (Hlk & Hl & Hk).
    split_and!; [by apply StronglySorted_Sorted | by apply StronglySorted_Sorted |].
    intros i j Hi Hj. apply Hlk; by apply list_elem_of_fmap_2.
  - intros (Hl & Hk & Hlk). apply StronglySorted_Sorted.
    apply StronglySorted_app_2.
    + intros x y (i & -> & Hi)%list_elem_of_fmap (j & -> & Hj)%list_elem_of_fmap.
      by apply Hlk.
    + by apply (sorting.Sorted_StronglySorted Z.le).
    + by apply (sorting.Sorted_StronglySorted Z.le).
Qed.

(** C2, as the code has it: the list written to the report is in source
    order, the rule engine's issues as they came and then the inference
    service's as they came; no sorting takes place, so the list ascends
    by section_id exactly when both inputs do and no issue of the rule
    engine lies in a later section than one of the inference service. *)
Theorem report_keeps_source_order (id : string) (o : Outcome) (w : World) (t : Task) :
  tasks (w_store w) !! id = Some t → reaches_audit o = true →
  let rule := Issues (delivered (audit_rules o)) in
  let sem := Issues (delivered (analyze_semantics o)) in
  ∃ l, reported_issues id (exec (process id o) w) = reported_issues id w ++ [l]
       ∧ (∀ n : nat, (n < length rule)%nat → l !! n = rule !! n)
       ∧ (∀ n : nat, l !! (length rule + n)%nat = sem !! n)
       ∧ (by_section l
          ↔ by_section rule ∧ by_section sem
            ∧ ∀ i j, i ∈ rule → j ∈ sem → section_id i ≤ section_id j).
Proof.
  intros Ht Hr rule sem. exists (rule ++ sem).
  split; [by apply (grpc_report id o w t)|].
  split_and!.
  - intros n Hn. by apply lookup_app_l.
  - intros n. rewrite lookup_app_r by lia. f_equal. lia.
  - apply by_section_app.
Qed.

Lemma report_keeps_source_order_witness :
  let rule := [sample_issue 3 "A" INFO; sample_issue 1 "B" INFO;
               sample_issue 2 "C" INFO] in
  let s := g_store (UploadHandler all_ok "u1" sample_gateway).2 in
  ∃ l, reported_issues "u1"
         (exec (process "u1" (sample_outcome rule [])) (start s)) = [] ++ [l]
       ∧ (∀ n : nat, (n < 3)%nat → l !! n = rule !! n)
       ∧ (∀ n : nat, l !! (3 + n)%nat = @nil Issue !! n)
       ∧ (by_section l
          ↔ by_section rule ∧ by_section []
            ∧ ∀ i j, i ∈ rule → j ∈ @nil Issue → section_id i ≤ section_id j).
Proof.
  eapply (report_keeps_source_order "u1"
            (sample_outcome [sample_issue 3 "A" INFO; sample_issue 1 "B" INFO;
                             sample_issue 2 "C" INFO] [])
            (start (g_store (UploadHandler all_ok "u1" sample_gateway).2))).
  - vm_compute. reflexivity.
  - reflexivity.
Defined.

(** C2, as stated, fails: the rule engine reports on sections 3, 1 and 2
    in this order and the inference service reports nothing; the report
    lists the sections as 3, 1, 2. *)
Lemma report_is_not_sorted :
  let rule := [sample_issue 3 "A" INFO; sample_issue 1 "B" INFO;
               sample_issue 2 "C" INFO] in
  let s := g_store (UploadHandler all_ok "u1" sample_gateway).2 in
  let w := exec (process "u1" (sample_outcome rule [])) (start s) in
  (λ l : list Issue, section_id <$> l) <$> reported_issues "u1" w = [[3; 1; 2]]
  ∧ ∀ l, l ∈ reported_issues "u1" w → ¬ by_section l.
Proof.
  assert (Hrun : reported_issues "u1"
            (exec (process "u1"
               (sample_outcome [sample_issue 3 "A" INFO; sample_issue 1 "B" INFO;
                                sample_issue 2 "C" INFO] []))
               (start (g_store (UploadHandler all_ok "u1" sample_gateway).2)))
          = [[sample_issue 3 "A" INFO; sample_issue 1 "B" INFO;
              sample_issue 2 "C" INFO]])
    by (vm_compute; reflexivity).
  cbv zeta. rewrite Hrun. split; [done|].
  intros l ->%list_elem_of_singleton. unfold by_section; simpl.
  intros Hs. apply Sorted_inv in Hs as [_ Hhd].
  apply HdRel_inv in Hhd. lia.
Qed.

(** ** The inference stage *)

(** C3, as the code has it: once the parser has answered and the engine
    is connected, a failing or timed-out [AnalyzeSemantics] (on an
    established connection) still completes the task, the report holding
    the rule engine's issues alone; a failure to connect to the inference
    service ends the task in [Error: inference connect] at progress 40,
    before any audit call and without a report. *)
Theorem inference_failure_outcomes (id : string) (o : Outcome) (w : World)
    (t : Task) (parsed : ParsedData) :
  tasks (w_store w) !! id = Some t →
  parser_dial o = true → parse_document o = Some parsed → engine_dial o = true →
  let w' := exec (process id o) w in
  (inference_dial o = true → analyze_semantics o = None →
     (∃ tf, final_task id w' = Some tf
            ∧ Status tf = "Completed" ∧ Progress tf = 100)
     ∧ reported_issues id w'
       = reported_issues id w ++ [Issues (delivered (audit_rules o))])
  ∧ (inference_dial o = false →
       (∃ tf, final_task id w' = Some tf
              ∧ Status tf = "Error: inference connect" ∧ Progress tf = 40)
       ∧ reported_issues id w' = reported_issues id w
       ∧ w_calls w' = w_calls w ++ [Dial Parser; ParseDocument (SourcePath t);
                                    Dial Engine; Dial Inference]).
Proof.
  intros Ht Hd Hp He w'. subst w'. unfold final_task. split.
  - intros Hi Hsem. split.
    + rewrite (grpc_paths.completed id o w t Ht parsed Hd Hp He Hi); simpl.
      eexists. split; [apply lookup_insert_eq|]. done.
    + rewrite (grpc_report id o w t Ht).
      * rewrite Hsem; simpl. by rewrite app_nil_r.
      * by apply (reaches_audit_intro o parsed).
  - intros Hi.
    rewrite (grpc_paths.inference_connect id o w t Ht parsed Hd Hp He Hi).
    cbv zeta. split_and!.
    + eexists. split; [apply lookup_insert_eq|]. done.
    + unfold reported_issues at 1; simpl.
      rewrite reported_issues_app; simpl. by rewrite app_nil_r.
    + done.
Qed.

Lemma inference_failure_outcomes_witness :
  let rule := [sample_issue 1 "ERR_FONT_001" MEDIUM] in
  let s := g_store (UploadHandler all_ok "u1" sample_gateway).2 in
  let o := mkOutcome true (Some (mkParsedData "doc" "title" [])) true true
             (Some (mkAuditResponse rule (QArith_base.Qmake 0 1))) None
             CopyDone ReportDone in
  let w' := exec (process "u1" o) (start s) in
  (∃ tf, final_task "u1" w' = Some tf
         ∧ Status tf = "Completed" ∧ Progress tf = 100)
  ∧ reported_issues "u1" w' = [] ++ [rule].
Proof.
  eapply (inference_failure_outcomes "u1"
            (mkOutcome true (Some (mkParsedData "doc" "title" [])) true true
               (Some (mkAuditResponse [sample_issue 1 "ERR_FONT_001" MEDIUM]
                        (QArith_base.Qmake 0 1))) None CopyDone ReportDone)
            (start (g_store (UploadHandler all_ok "u1" sample_gateway).2)));
    reflexivity.
Defined.

(** C3, as stated, fails: the parser answers, the engine is connected and
    the inference service cannot be dialled; the task ends in an error
    state at progress 40 and never becomes [Completed]. *)
Lemma inference_connect_failure_is_fatal :
  let s := g_store (UploadHandler all_ok "u1" sample_gateway).2 in
  let o := mkOutcome true (Some (mkParsedData "doc" "title" [])) true false
             (Some empty_response) None CopyDone ReportDone in
  let w' := exec (process "u1" o) (start s) in
  field_history Status "u1" w'
    = ["Pending"; "Parsing"; "Auditing"; "Error: inference connect"]
  ∧ (Status <$> final_task "u1" w') = Some "Error: inference connect"
  ∧ is_error "Error: inference connect" = true
  ∧ "Completed" ∉ field_history Status "u1" w'.
Proof.
  assert (Hrun : field_history Status "u1"
            (exec (process "u1"
               (mkOutcome true (Some (mkParsedData "doc" "title" [])) true false
                  (Some empty_response) None CopyDone ReportDone))
               (start (g_store (UploadHandler all_ok "u1" sample_gateway).2)))
          = ["Pending"; "Parsing"; "Auditing"; "Error: inference connect"])
    by (vm_compute; reflexivity).
  cbv zeta. rewrite Hrun.
  split_and!; [done | by vm_compute | done |].
  rewrite !not_elem_of_cons. split_and!; try discriminate. apply not_elem_of_nil.
Qed.

(** ** No breaker in front of the inference service *)

Lemma semantic_calls_app w cs s' h' f' :
  semantic_calls (mkWorld s' h' (w_calls w ++ cs) f')
  = (semantic_calls w + length (List.filter is_semantic_call cs))%nat.
Proof. unfold semantic_calls; simpl. by rewrite List.filter_app, length_app. Qed.

(** An iteration sends [AnalyzeSemantics] once when the audit stage is
    reached and not at all otherwise. *)
Lemma grpc_semantic_calls id o w :
  is_Some (tasks (w_store w) !! id) →
  semantic_calls (exec (process id o) w)
  = (semantic_calls w + if reaches_audit o then 1 else 0)%nat.
Proof.
  intros [t Ht]. unfold reaches_audit.
  grpc_cases id o w t Ht; rewrite semantic_calls_app; simpl; done.
Qed.

Lemma for_range_semantic_calls jobs w :
  Forall (λ j, is_Some (tasks (w_store w) !! j.1)) jobs →
  semantic_calls (for_range process jobs w)
  = (semantic_calls w + length (List.filter (λ j, reaches_audit j.2) jobs))%nat.
Proof.
  revert w. induction jobs as [|[id o] jobs IH]; intros w Hall; simpl.
  - lia.
  - apply Forall_cons in Hall as [Hid Hall]. simpl in Hid.
    rewrite IH.
    + rewrite (grpc_semantic_calls id o w Hid).
      destruct (reaches_audit o); simpl; lia.
    + eapply Forall_impl; [exact Hall|]. intros j Hj.
      by apply (grpc_same_ids id o w).
Qed.

(** C4, as the code has it: nothing stands between the worker and the
    inference service.  Every task of the store for which the parser
    answers and both connections of the audit stage are made sends
    [AnalyzeSemantics] over the network exactly once, whatever became of
    the calls before it; no number of failures in a row spares the next
    task its call. *)
Theorem inference_called_for_every_task (s : Store) (jobs : list (string * Outcome)) :
  Forall (λ j, is_Some (tasks s !! j.1)) jobs →
  semantic_calls (Worker jobs (start s))
  = length (List.filter (λ j, reaches_audit j.2) jobs).
Proof.
  intros Hall. unfold Worker.
  by rewrite (for_range_semantic_calls jobs (start s) Hall).
Qed.

Lemma inference_called_for_every_task_witness :
  semantic_calls
    (Worker [("a1", semantics_fails); ("a2", semantics_fails)]
            (start (uploaded ["a1"; "a2"])))
  = 2%nat.
Proof.
  apply (inference_called_for_every_task (uploaded ["a1"; "a2"])
           [("a1", semantics_fails); ("a2", semantics_fails)]).
  repeat constructor; vm_compute; eexists; reflexivity.
Defined.

(** C4, as stated, fails (with N = 5): [AnalyzeSemantics] fails for five
    tasks in a row, and the call of the sixth task goes out all the same;
    six calls in all reach the network. *)
Lemma sixth_call_after_five_failures :
  let ids := ["a1"; "a2"; "a3"; "a4"; "a5"; "a6"] in
  let jobs := (λ id, (id, semantics_fails)) <$> ids in
  semantic_calls (Worker (take 5 jobs) (start (uploaded ids))) = 5%nat
  ∧ semantic_calls (Worker jobs (start (uploaded ids))) = 6%nat
  ∧ last (w_calls (Worker jobs (start (uploaded ids))))
    = Some (WriteReport "../temp_docs/a6.docx-report.json" "a6" [])
  ∧ AnalyzeSemantics [] ∈ drop 40 (w_calls (Worker jobs (start (uploaded ids)))).
Proof.
  cbv zeta. split_and!; [by vm_compute..|].
  assert (Hcalls : drop 40 (w_calls (Worker
              ((λ id, (id, semantics_fails)) <$> ["a1"; "a2"; "a3"; "a4"; "a5"; "a6"])
              (start (uploaded ["a1"; "a2"; "a3"; "a4"; "a5"; "a6"]))))
            = [Dial Parser; ParseDocument "../temp_docs/a6.docx"; Dial Engine;
               Dial Inference; AuditRules (mkParsedData "doc" "title" []);
               AnalyzeSemantics [];
               CopyFile "../temp_docs/a6.docx" "../temp_docs/a6.docx-annotated.docx";
               WriteReport "../temp_docs/a6.docx-report.json" "a6" []])
    by (vm_compute; reflexivity).
  rewrite Hcalls. do 5 right. left.
Qed.

(** ** The two paths of a task *)

(** The records an iteration writes for a task it finds unfinished: all
    unfinished again when the audit stage is not reached, and otherwise
    unfinished ones and then, last, the completed record. *)
Lemma grpc_records id o w t :
  tasks (w_store w) !! id = Some t → unfinished t →
  ∃ ts tf,
    w_history (exec (process id o) w) = w_history w ++ ((λ t', cell id t' w) <$> ts)
    ∧ tasks (w_store (exec (process id o) w)) !! id = Some tf
    ∧ if reaches_audit o
      then ∃ ts', ts = ts' ++ [completed_record t] ∧ Forall unfinished ts'
                  ∧ tf = completed_record t
      else Forall unfinished ts ∧ unfinished tf.
Proof.
  intros Ht (Ha & Hr & Hst & Hp).
  set (t1 := parsing_record t). set (t2 := auditing_record t).
  assert (H1 : unfinished t1) by (unfold unfinished; simpl; split_and!; [done..|lia]).
  assert (H2 : unfinished t2) by (unfold unfinished; simpl; split_and!; [done..|lia]).
  assert (He : ∀ st, st ≠ "Completed" →
                     unfinished (set_Status st t1) ∧ unfinished (set_Status st t2)).
  { intros st Hne. unfold unfinished; simpl. split_and!; done || lia. }
  unfold reaches_audit. grpc_cases id o w t Ht; simpl.
  - exists [t1; t2; completed_record t].
    eexists. split; [reflexivity|]. split; [apply lookup_insert_eq|].
    exists [t1; t2]. split_and!; [done | by repeat constructor | done].
  - stored_tasks [t1; t2; set_Status "Error: inference connect" t2].
    destruct (He "Error: inference connect") as [_ Hu]; [done|].
    split; [by repeat constructor | done].
  - stored_tasks [t1; t2; set_Status "Error: engine connect" t2].
    destruct (He "Error: engine connect") as [_ Hu]; [done|].
    split; [by repeat constructor | done].
  - stored_tasks [t1; set_Status "Error: parse" t1].
    destruct (He "Error: parse") as [Hu _]; [done|].
    split; [by repeat constructor | done].
  - stored_tasks [t1; set_Status "Error: parser connect" t1].
    destruct (He "Error: parser connect") as [Hu _]; [done|].
    split; [by repeat constructor | done].
Qed.

(** C8, as the code has it: over the whole run the records of a task are
    first all without paths and not complete, and then, from one mutation
    on, all the one completed record, in which both paths, the status
    [Completed] and the progress 100 appear together; that mutation takes
    place exactly when the audit stage is reached, and whether or not the
    copy made the annotated file has no part in it. *)
Theorem paths_set_once_with_completion (io : UploadIO) (id : string) (g : Gateway)
    (pre post : list (string * Outcome)) (o : Outcome) :
  io_ok io → id ∉ pre.*1 → id ∉ post.*1 →
  let s := g_store (UploadHandler io id g).2 in
  let w := Worker (pre ++ (id, o) :: post) (start s) in
  ∃ before after,
    task_history id w = before ++ after
    ∧ Forall unfinished before
    ∧ Forall (λ t, t = completed_task id) after
    ∧ (after ≠ [] ↔ reaches_audit o = true).
Proof.
  intros Hio Hpre Hpost s w.
  destruct (upload_creates io id g Hio) as (st & Hst & Hs). fold s in Hs.
  set (t0 := mkTask id st 0 (temp_docs (id +:+ ".docx")) "" "") in *.
  destruct (for_range_split process
              (λ i i' o' Hne, grpc_untouched i i' o' Hne)
              s id t0 o pre post Hs Hpre Hpost)
    as (Hs1 & (hs1 & Hh1 & Hf1) & _ & (hs3 & Hh3 & Hf3)).
  set (w1 := for_range process pre (start s)) in *.
  change (for_range process (pre ++ (id, o) :: post) (start s)) with w in Hh3.
  assert (Hun0 : unfinished t0).
  { unfold unfinished; simpl. split_and!; [done|done| |lia].
    destruct Hst as [-> | ->]; discriminate. }
  assert (Hconst : ∀ (t : Task) (P : Task → Prop) hs,
            P t → Forall (λ s', tasks s' !! id = Some t) hs →
            Forall P (omap (field_of (λ t, t) id) hs)).
  { intros t P hs HP Hall.
    eapply Forall_impl; [by apply (omap_field_const (λ t, t) id t)|].
    by intros ? ->. }
  destruct (grpc_records id o w1 t0 Hs1 Hun0) as (ts & tf & Hh2 & Hs2 & Hcase).
  rewrite Hs2 in Hf3.
  unfold task_history, field_history. rewrite Hh3, Hh2, Hh1.
  rewrite !omap_app, (omap_field_cells (λ t, t) id w1 ts), list_fmap_id.
  destruct (reaches_audit o).
  - destruct Hcase as (ts' & -> & Hts' & ->).
    exists (omap (field_of (λ t, t) id) (s :: hs1) ++ ts'),
           (completed_task id :: omap (field_of (λ t, t) id) hs3).
    split; [by rewrite <- !app_assoc|].
    split_and!; [| |done].
    + apply Forall_app. split; [|done].
      apply (Hconst t0); [done | by constructor].
    + constructor; [done|]. by apply (Hconst (completed_task id)).
  - destruct Hcase as (Hts & Hutf).
    eexists _, []. rewrite app_nil_r. split; [reflexivity|].
    split_and!; [| constructor | by split].
    rewrite !Forall_app. split_and!; [|done|by apply (Hconst tf)].
    apply (Hconst t0); [done | by constructor].
Qed.

Lemma paths_set_once_with_completion_witness :
  let o := sample_outcome [] [] in
  let s := g_store (UploadHandler all_ok "u1" sample_gateway).2 in
  let w := Worker [("u0", o); ("u1", o); ("u2", o)] (start s) in
  ∃ before after,
    task_history "u1" w = before ++ after
    ∧ Forall unfinished before
    ∧ Forall (λ t, t = completed_task "u1") after
    ∧ (after ≠ [] ↔ reaches_audit o = true).
Proof.
  apply (paths_set_once_with_completion all_ok "u1" sample_gateway
           [("u0", sample_outcome [] [])] [("u2", sample_outcome [] [])]
           (sample_outcome [] [])).
  - exact all_ok_io_ok.
  - apply not_in_singleton. discriminate.
  - apply not_in_singleton. discriminate.
Defined.

(** C8, as stated, fails: the source cannot be opened, so the copy makes
    no annotated file, and the task is completed with [annotated_path]
    set all the same. *)
Lemma annotated_path_set_without_file :
  let s := g_store (UploadHandler all_ok "u1" sample_gateway).2 in
  let o := mkOutcome true (Some (mkParsedData "doc" "title" [])) true true
             (Some empty_response) (Some empty_response)
             CopyOpenErr ReportDone in
  let w' := exec (process "u1" o) (start s) in
  (AnnotatedPath <$> final_task "u1" w')
    = Some "../temp_docs/u1.docx-annotated.docx"
  ∧ (Status <$> final_task "u1" w') = Some "Completed"
  ∧ elements (w_files w') = ["../temp_docs/u1.docx-report.json"]
  ∧ "../temp_docs/u1.docx-annotated.docx" ∉ w_files w'.
Proof.
  cbv zeta. split_and!; [by vm_compute..|].
  apply (bool_decide_unpack _). by vm_compute.
Qed.

(** * More properties of the gateway *)

(** ** The store *)

(** X1: two updates of the same record amount to one update with the
    two mutations in a row, and updates of different records can be made
    in either order. *)
Theorem UpdateTask_compose (id id' : string) (f h : Task → Task) (s : Store) :
  (UpdateTask id h (UpdateTask id f s).1).1 = (UpdateTask id (h ∘ f) s).1
  ∧ (id ≠ id' →
     (UpdateTask id' h (UpdateTask id f s).1).1
     = (UpdateTask id f (UpdateTask id' h s).1).1).
Proof.
  split.
  - unfold UpdateTask.
    destruct (tasks s !! id) as [t|] eqn:E; simpl.
    + rewrite lookup_insert_eq; simpl. by rewrite insert_insert_eq.
    + by rewrite E.
  - intros Hne. unfold UpdateTask.
    destruct (tasks s !! id) as [t|] eqn:E;
      destruct (tasks s !! id') as [t'|] eqn:E'; simpl;
      rewrite ?lookup_insert_ne by done; rewrite ?E, ?E'; simpl; try done.
    f_equal. by apply insert_insert_ne.
Qed.

Lemma UpdateTask_compose_witness :
  let s := AddTask (mkTask "b" "Pending" 0 "b.docx" "" "")
             (AddTask (mkTask "a" "Pending" 0 "a.docx" "" "") NewStore) in
  (UpdateTask "b" (set_Progress 5) (UpdateTask "a" (set_Status "Parsing") s).1).1
  = (UpdateTask "a" (set_Status "Parsing") (UpdateTask "b" (set_Progress 5) s).1).1.
Proof.
  apply (UpdateTask_compose "a" "b" (set_Status "Parsing") (set_Progress 5)).
  discriminate.
Defined.

(** X2: a task added to the store is found under its id, an update of it
    succeeds, and afterwards the id yields the mutated task, whatever the
    store held before (the scenario of the store's test, for every task
    and mutation). *)
Theorem add_update_get (t : Task) (fn : Task → Task) (s : Store) :
  let s1 := AddTask t s in
  GetTask (ID t) s1 = Some t
  ∧ (UpdateTask (ID t) fn s1).2 = true
  ∧ GetTask (ID t) (UpdateTask (ID t) fn s1).1 = Some (fn t).
Proof.
  unfold AddTask, UpdateTask, GetTask; simpl.
  rewrite lookup_insert_eq; simpl.
  split_and!; [done..|]. apply lookup_insert_eq.
Qed.

(** X3: no operation of the store removes a record: the ids of the store
    are the same after [UpdateTask], and after [AddTask] they are the
    former ones and the id of the task added. *)
Theorem store_keeps_ids (t : Task) (id : string) (fn : Task → Task) (s : Store) :
  dom (tasks (UpdateTask id fn s).1) = dom (tasks s)
  ∧ dom (tasks (AddTask t s)) = {[ID t]} ∪ dom (tasks s).
Proof.
  split.
  - apply set_eq. intros i. rewrite !elem_of_dom.
    apply UpdateTask_present.
  - unfold AddTask; simpl. apply dom_insert_L.
Qed.

(** ** Intake, its failures and the handlers which read *)

Lemma io_okb_true (io : UploadIO) : io_okb io = true ↔ io_ok io.
Proof.
  unfold io_okb, io_ok. rewrite !andb_true_iff. tauto.
Qed.

(** An upload which is not accepted changes nothing. *)
Lemma upload_refused (io : UploadIO) (id : string) (g : Gateway) :
  io_okb io = false → (UploadHandler io id g).2 = g.
Proof.
  unfold io_okb, UploadHandler.
  destruct (form_file_ok io), (open_ok io), (create_ok io), (copy_ok io);
    simpl; done.
Qed.

(** X4: an upload with a failing file step creates no task and queues
    nothing: store and queue are as before; the answer is 400 with
    "file required" when the form has no file, and the error itself
    otherwise, but never the 202 with a task id. *)
Theorem failed_upload_changes_nothing (io : UploadIO) (id : string) (g : Gateway) :
  ¬ io_ok io →
  let '(resp, g') := UploadHandler io id g in
  g' = g
  ∧ resp = (if form_file_ok io
            then HandlerError
            else JSON StatusBadRequest [("error", "file required")])
  ∧ resp ≠ JSON StatusAccepted [("task_id", id)].
Proof.
  intros Hbad. unfold UploadHandler.
  destruct (form_file_ok io) eqn:Hf; simpl; [|by split_and!].
  destruct (open_ok io) eqn:Ho; simpl; [|by split_and!].
  destruct (create_ok io) eqn:Hc; simpl; [|by split_and!].
  destruct (copy_ok io) eqn:Hy; simpl; [|by split_and!].
  destruct Hbad. by repeat split.
Qed.

Lemma failed_upload_changes_nothing_witness :
  let '(resp, g') :=
    UploadHandler (mkUploadIO true true false true) "u1" sample_gateway in
  g' = sample_gateway
  ∧ resp = HandlerError
  ∧ resp ≠ JSON StatusAccepted [("task_id", "u1")].
Proof.
  pose proof (failed_upload_changes_nothing (mkUploadIO true true false true)
                "u1" sample_gateway) as H.
  simpl in H. apply H. intros (_ & _ & Hc & _). discriminate.
Defined.

(** X5: an accepted upload touches the record of its own id only: every
    other record is as before, the store gains exactly that id, and the
    capacity of the queue is unchanged. *)
Theorem accepted_upload_frame (io : UploadIO) (id : string) (g : Gateway) :
  io_ok io →
  let g' := (UploadHandler io id g).2 in
  (∀ id', id' ≠ id → GetTask id' (g_store g') = GetTask id' (g_store g))
  ∧ dom (tasks (g_store g')) = {[id]} ∪ dom (tasks (g_store g))
  ∧ cap (g_tasks g') = cap (g_tasks g).
Proof.
  intros (Hf & Ho & Hc & Hy). unfold UploadHandler.
  rewrite Hf, Ho, Hc, Hy; simpl.
  unfold try_send, go_send, try_send.
  case_decide as Hroom; simpl.
  - split_and!; [| by rewrite dom_insert_L | done].
    intros id' Hne. unfold GetTask; simpl. by rewrite lookup_insert_ne.
  - unfold UpdateTask; simpl. rewrite lookup_insert_eq; simpl.
    rewrite insert_insert_eq.
    split_and!; [| by rewrite dom_insert_L | done].
    intros id' Hne. unfold GetTask; simpl. by rewrite lookup_insert_ne.
Qed.

Lemma accepted_upload_frame_witness :
  let g := (UploadHandler all_ok "u0" sample_gateway).2 in
  let g' := (UploadHandler all_ok "u1" g).2 in
  (∀ id', id' ≠ "u1" → GetTask id' (g_store g') = GetTask id' (g_store g))
  ∧ dom (tasks (g_store g')) = {["u1"]} ∪ dom (tasks (g_store g))
  ∧ cap (g_tasks g') = cap (g_tasks g).
Proof.
  apply (accepted_upload_frame all_ok "u1"
           (UploadHandler all_ok "u0" sample_gateway).2).
  exact all_ok_io_ok.
Defined.

(** X6: after an accepted upload into an empty queue of positive
    capacity the status route answers 200 with the new task, [Pending]
    at progress 0 with its source under temp_docs, and the worker's next
    receive yields the id and leaves the queue empty (the scenario of the
    handlers' test, for every id and store). *)
Theorem upload_then_status_and_receive (io : UploadIO) (id : string) (g : Gateway) :
  io_ok io → buf (g_tasks g) = [] → sendq (g_tasks g) = [] →
  (0 < cap (g_tasks g))%nat →
  let g' := (UploadHandler io id g).2 in
  StatusHandler id (g_store g')
    = ATask StatusOK (mkTask id "Pending" 0 (temp_docs (id +:+ ".docx")) "" "")
  ∧ recv (g_tasks g') = Some (id, mkChan [] (cap (g_tasks g)) []).
Proof.
  intros (Hf & Ho & Hc & Hy) Hb Hq Hcap. unfold UploadHandler.
  rewrite Hf, Ho, Hc, Hy; simpl.
  rewrite try_send_room by (rewrite Hb; simpl; lia). simpl.
  split.
  - unfold StatusHandler, GetTask; simpl. by rewrite lookup_insert_eq.
  - unfold recv; simpl. by rewrite Hb, Hq.
Qed.

Lemma upload_then_status_and_receive_witness :
  let g' := (UploadHandler all_ok "u1" (mkGateway NewStore (make_chan 1))).2 in
  StatusHandler "u1" (g_store g')
    = ATask StatusOK (mkTask "u1" "Pending" 0 "../temp_docs/u1.docx" "" "")
  ∧ recv (g_tasks g') = Some ("u1", mkChan [] 1 []).
Proof.
  apply (upload_then_status_and_receive all_ok "u1"
           (mkGateway NewStore (make_chan 1)));
    [exact all_ok_io_ok | reflexivity | reflexivity | simpl; lia].
Defined.

(** ** The queue between intake and worker *)

Section queue_facts.
Implicit Types (c : Chan) (g : Gateway) (id : string).

Lemma chan_ok_try_send id c c' :
  chan_ok c → try_send id c = Some c' →
  chan_ok c' ∧ cap c' = cap c ∧ pending c' = pending c ++ [id].
Proof.
  intros [Hle Hq]. unfold try_send. case_decide as Hroom; [|done].
  intros [= <-]. unfold chan_ok, pending; simpl.
  assert (sendq c = []) as ->.
  { destruct (sendq c) eqn:E; [done|]. specialize (Hq ltac:(done)). lia. }
  rewrite length_app; simpl. split_and!; [lia | done | done |].
  by rewrite !app_nil_r.
Qed.

Lemma chan_ok_go_send id c :
  chan_ok c →
  chan_ok (go_send id c) ∧ cap (go_send id c) = cap c
  ∧ pending (go_send id c) = pending c ++ [id].
Proof.
  intros Hok. unfold go_send.
  destruct (try_send id c) as [c'|] eqn:E.
  - by apply (chan_ok_try_send id c c').
  - unfold try_send in E. case_decide as Hroom; [done|].
    destruct Hok as [Hle Hq]. unfold chan_ok, pending; simpl.
    split_and!; [done | intros _; lia | done | by rewrite app_assoc].
Qed.

Lemma chan_ok_upload io id g :
  chan_ok (g_tasks g) →
  let g' := (UploadHandler io id g).2 in
  chan_ok (g_tasks g') ∧ cap (g_tasks g') = cap (g_tasks g)
  ∧ pending (g_tasks g')
    = pending (g_tasks g) ++ (if io_okb io then [id] else []).
Proof.
  intros Hok. destruct (io_okb io) eqn:Hio.
  - apply io_okb_true in Hio as (Hf & Ho & Hc & Hy). unfold UploadHandler.
    rewrite Hf, Ho, Hc, Hy; simpl.
    destruct (try_send id (g_tasks g)) as [c'|] eqn:E; simpl.
    + by apply (chan_ok_try_send id (g_tasks g) c').
    + pose proof (chan_ok_go_send id (g_tasks g) Hok) as H.
      unfold go_send in *. by rewrite E in *.
  - simpl. rewrite (upload_refused io id g Hio).
    by rewrite app_nil_r.
Qed.

Lemma chan_ok_recv c id c' :
  chan_ok c → (0 < cap c)%nat → recv c = Some (id, c') →
  chan_ok c' ∧ cap c' = cap c ∧ pending c = id :: pending c'.
Proof.
  intros [Hle Hq] Hcap. unfold recv, chan_ok, pending.
  destruct (buf c) as [|x rest] eqn:Eb; [done|].
  destruct (sendq c) as [|y q] eqn:Es; intros [= <- <-]; simpl in *.
  - split_and!; [lia | done | done | done].
  - specialize (Hq ltac:(done)). rewrite length_app; simpl.
    split_and!; [lia | intros _; lia | done |].
    by rewrite <- app_assoc.
Qed.

Lemma recv_None c :
  chan_ok c → (0 < cap c)%nat → recv c = None → pending c = [].
Proof.
  intros [Hle Hq] Hcap. unfold recv, pending.
  destruct (buf c) as [|x rest] eqn:Eb.
  - intros _. destruct (sendq c) eqn:Es; [done|].
    specialize (Hq ltac:(done)). simpl in Hq. lia.
  - by destruct (sendq c).
Qed.

Lemma drain_pending fuel c :
  chan_ok c → (0 < cap c)%nat → (length (pending c) ≤ fuel)%nat →
  drain fuel c = pending c.
Proof.
  revert c. induction fuel as [|n IH]; intros c Hok Hcap Hlen; simpl.
  - destruct (pending c); [done|simpl in Hlen; lia].
  - destruct (recv c) as [[id c']|] eqn:E.
    + destruct (chan_ok_recv c id c' Hok Hcap E) as (Hok' & Hcap' & Hp).
      rewrite Hp. f_equal. apply IH; [done | lia |].
      rewrite Hp in Hlen. simpl in Hlen. lia.
    + symmetry. by apply recv_None.
Qed.

Lemma uploads_pending reqs g :
  chan_ok (g_tasks g) →
  chan_ok (g_tasks (uploads reqs g))
  ∧ cap (g_tasks (uploads reqs g)) = cap (g_tasks g)
  ∧ pending (g_tasks (uploads reqs g)) = pending (g_tasks g) ++ accepted reqs.
Proof.
  revert g. induction reqs as [|[io id] reqs IH]; intros g Hok; simpl.
  - unfold accepted; simpl. by rewrite app_nil_r.
  - destruct (chan_ok_upload io id g Hok) as (Hok1 & Hcap1 & Hp1).
    destruct (IH _ Hok1) as (Hok2 & Hcap2 & Hp2).
    split_and!; [done | congruence |].
    fold (uploads reqs (UploadHandler io id g).2). rewrite Hp2, Hp1.
    unfold accepted. rewrite filter_cons. simpl.
    destruct (decide (io_okb io = true)) as [Hio|Hio].
    + rewrite Hio. simpl. by rewrite <- app_assoc.
    + apply not_true_is_false in Hio. rewrite Hio. by rewrite app_nil_r.
Qed.
End queue_facts.

(** X7: the queue stays as the runtime keeps it through every upload,
    accepted or not, and through every receive: the buffer never exceeds
    its capacity and a sender is parked only while the buffer is full;
    the capacity never changes. *)
Theorem queue_stays_well_formed (io : UploadIO) (id : string) (g : Gateway) :
  chan_ok (g_tasks g) → (0 < cap (g_tasks g))%nat →
  (chan_ok (g_tasks (UploadHandler io id g).2)
   ∧ cap (g_tasks (UploadHandler io id g).2) = cap (g_tasks g))
  ∧ ∀ x c', recv (g_tasks g) = Some (x, c') →
            chan_ok c' ∧ cap c' = cap (g_tasks g).
Proof.
  intros Hok Hcap. split.
  - destruct (chan_ok_upload io id g Hok) as (H1 & H2 & _). done.
  - intros x c' Hrecv.
    destruct (chan_ok_recv _ x c' Hok Hcap Hrecv) as (H1 & H2 & _). done.
Qed.

Lemma queue_stays_well_formed_witness :
  let g := mkGateway NewStore (mkChan ["u0"] 1 ["u1"]) in
  (chan_ok (g_tasks (UploadHandler all_ok "u2" g).2)
   ∧ cap (g_tasks (UploadHandler all_ok "u2" g).2) = 1%nat)
  ∧ ∀ x c', recv (g_tasks g) = Some (x, c') → chan_ok c' ∧ cap c' = 1%nat.
Proof.
  apply (queue_stays_well_formed all_ok "u2"
           (mkGateway NewStore (mkChan ["u0"] 1 ["u1"]))).
  - split; simpl; [lia | done].
  - simpl. lia.
Defined.

(** X8: no id is lost and none comes twice.  After any series of uploads
    the worker, receiving until it has to wait, gets the ids that were
    already on their way and the ids of the accepted uploads, each once
    (refused uploads contribute nothing); as long as no sender had to
    park, it gets them in the order of the uploads. *)
Theorem every_accepted_id_is_delivered (reqs : list (UploadIO * string))
    (g : Gateway) :
  chan_ok (g_tasks g) → (0 < cap (g_tasks g))%nat →
  let c := g_tasks (uploads reqs g) in
  let got := drain (length (buf c) + length (sendq c)) c in
  got ≡ₚ buf (g_tasks g) ++ sendq (g_tasks g) ++ accepted reqs
  ∧ (sendq c = [] → got = buf (g_tasks g) ++ accepted reqs)
  ∧ ∀ more, drain (length (buf c) + length (sendq c) + more) c = got.
Proof.
  intros Hok Hcap c got.
  destruct (uploads_pending reqs g Hok) as (Hok' & Hcap' & Hp).
  fold c in Hok', Hcap', Hp.
  assert (Hgot : ∀ more,
    drain (length (buf c) + length (sendq c) + more) c = pending c).
  { intros more. apply drain_pending; [done | lia |].
    unfold pending. rewrite length_app. lia. }
  assert (got = pending c) as ->.
  { unfold got. rewrite <- (Hgot 0%nat). f_equal. lia. }
  split_and!.
  - rewrite Hp. unfold pending. by rewrite app_assoc.
  - intros Hq. rewrite Hp. unfold pending.
    assert (sendq (g_tasks g) = []) as ->; [|by rewrite app_nil_r].
    assert (Hlen : length (pending c) = length (buf c)).
    { unfold pending. rewrite Hq. by rewrite app_nil_r. }
    destruct (sendq (g_tasks g)) as [|y q] eqn:Es; [done|exfalso].
    destruct Hok as [Hle Hfull]. destruct Hok' as [Hle' _].
    specialize (Hfull ltac:(by rewrite Es)).
    rewrite Hp in Hlen. unfold pending in Hlen.
    rewrite Es, !length_app in Hlen. simpl in Hlen. lia.
  - done.
Qed.

Lemma every_accepted_id_is_delivered_witness :
  let reqs := [(all_ok, "u1"); (mkUploadIO false true true true, "u2");
               (all_ok, "u3")] in
  let c := g_tasks (uploads reqs (mkGateway NewStore (make_chan 1))) in
  let got := drain (length (buf c) + length (sendq c)) c in
  got ≡ₚ [] ++ [] ++ accepted reqs
  ∧ (sendq c = [] → got = [] ++ accepted reqs)
  ∧ ∀ more, drain (length (buf c) + length (sendq c) + more) c = got.
Proof.
  apply (every_accepted_id_is_delivered
           [(all_ok, "u1"); (mkUploadIO false true true true, "u2");
            (all_ok, "u3")]
           (mkGateway NewStore (make_chan 1))).
  - split; simpl; [lia | done].
  - simpl. lia.
Defined.

(** ** More on the gRPC worker *)

Lemma stops_with_None o :
  stops_with o = None ↔ reaches_audit o = true.
Proof.
  unfold stops_with, reaches_audit.
  destruct (parser_dial o), (bool_decide (is_Some (parse_document o))),
    (engine_dial o), (inference_dial o); simpl; split; intros; done.
Qed.

(** The record an iteration of the gRPC worker leaves: the completed one,
    or one stopped with its error status at progress 5 or 40 and with the
    paths it had. *)
Lemma grpc_final_record id o w t :
  tasks (w_store w) !! id = Some t →
  ∃ tf, tasks (w_store (exec (process id o) w)) !! id = Some tf
        ∧ same_origin t tf
        ∧ match stops_with o with
          | None => tf = completed_record t
          | Some st => Status tf = st ∧ is_error st = true
                       ∧ (Progress tf = 5 ∨ Progress tf = 40)
                       ∧ AnnotatedPath tf = AnnotatedPath t
                       ∧ ReportPath tf = ReportPath t
          end.
Proof.
  intros Ht. unfold stops_with.
  grpc_cases id o w t Ht; simpl;
    (eexists; split; [apply lookup_insert_eq|]); simpl;
    split_and!; try done; auto.
Qed.

(** X9: what the audit calls, the copy and the writing of the report do
    never shows in the store: two iterations of the gRPC worker which
    agree on the two dials of the audit stage, on the dial of the parser
    and on whether it answers leave the same store and the same recorded
    stores, whatever [AuditRules], [AnalyzeSemantics], [copyFile] and
    [WriteReport] give. *)
Theorem store_blind_to_audit_results (id : string) (o o' : Outcome) (w : World) :
  same_gates o o' →
  w_store (exec (process id o) w) = w_store (exec (process id o') w)
  ∧ w_history (exec (process id o) w) = w_history (exec (process id o') w).
Proof.
  intros (Hd & Hp & He & Hi).
  destruct (tasks (w_store w) !! id) as [t|] eqn:Ht.
  - assert (Hsame : match parse_document o, parse_document o' with
                    | Some _, Some _ | None, None => True
                    | _, _ => False
                    end).
    { destruct Hp as [Hp1 Hp2].
      destruct (parse_document o), (parse_document o'); try done.
      - destruct Hp1 as [? ?]; [eauto|done].
      - destruct Hp2 as [? ?]; [eauto|done]. }
    clear Hp. symmetry in Hd, He, Hi.
    grpc_cases id o w t Ht;
      destruct (parse_document o') as [parsed'|] eqn:Hq; try done.
    + by rewrite (grpc_paths.completed id o' w t Ht parsed').
    + by rewrite (grpc_paths.inference_connect id o' w t Ht parsed').
    + by rewrite (grpc_paths.engine_connect id o' w t Ht parsed').
    + by rewrite (grpc_paths.parse_error id o' w t Ht).
    + by rewrite (grpc_paths.parser_connect id o' w t Ht).
    + by rewrite (grpc_paths.parser_connect id o' w t Ht).
  - unfold exec. by rewrite !grpc_absent.
Qed.

Lemma store_blind_to_audit_results_witness :
  let s := g_store (UploadHandler all_ok "u1" sample_gateway).2 in
  let o := sample_outcome [sample_issue 1 "A" INFO] [] in
  w_store (exec (process "u1" o) (start s))
    = w_store (exec (process "u1" semantics_fails) (start s))
  ∧ w_history (exec (process "u1" o) (start s))
    = w_history (exec (process "u1" semantics_fails) (start s)).
Proof.
  apply (store_blind_to_audit_results "u1"
           (sample_outcome [sample_issue 1 "A" INFO] []) semantics_fails).
  repeat split; simpl; eauto.
Defined.

(** X10: a failing [AuditRules] does not fail the task either.  When the
    audit stage is reached the task is completed whatever the two calls
    give; with a failing [AuditRules] the report holds the inference
    service's issues alone, and with both calls failing it holds no
    issue at all. *)
Theorem rule_engine_failure_degrades (id : string) (o : Outcome) (w : World)
    (t : Task) :
  tasks (w_store w) !! id = Some t → reaches_audit o = true →
  let w' := exec (process id o) w in
  final_task id w' = Some (completed_record t)
  ∧ (audit_rules o = None →
     reported_issues id w'
     = reported_issues id w ++ [Issues (delivered (analyze_semantics o))])
  ∧ (audit_rules o = None → analyze_semantics o = None →
     reported_issues id w' = reported_issues id w ++ [[]]).
Proof.
  intros Ht Hr w'. subst w'.
  rewrite (grpc_report id o w t Ht Hr).
  destruct (grpc_final_record id o w t Ht) as (tf & Hf & _ & Hst).
  apply stops_with_None in Hr. rewrite Hr in Hst. subst tf.
  split_and!; [done | |].
  - by intros ->.
  - by intros -> ->.
Qed.

Lemma rule_engine_failure_degrades_witness :
  let s := g_store (UploadHandler all_ok "u1" sample_gateway).2 in
  let sem := [sample_issue 4 "SEM_001" INFO] in
  let o := mkOutcome true (Some (mkParsedData "doc" "title" [])) true true
             None (Some (mkAuditResponse sem (QArith_base.Qmake 0 1)))
             CopyDone ReportDone in
  reported_issues "u1" (exec (process "u1" o) (start s)) = [] ++ [sem].
Proof.
  eapply (rule_engine_failure_degrades "u1"
            (mkOutcome true (Some (mkParsedData "doc" "title" [])) true true
               None (Some (mkAuditResponse [sample_issue 4 "SEM_001" INFO]
                             (QArith_base.Qmake 0 1)))
               CopyDone ReportDone)
            (start (g_store (UploadHandler all_ok "u1" sample_gateway).2)));
    reflexivity.
Defined.



(** ** Whole runs of the workers *)

Local Ltac same_ids_prim :=
  first [ apply same_ids_call
        | apply same_ids_create_file
        | apply same_ids_update_task
        | apply keeps_for_p ].

Lemma sim_same_ids id o : keeps same_ids (worker_sim.process id o).
Proof. unfold_process. keeps_steps same_ids_prim. Qed.

Lemma main_same_ids id o : keeps same_ids (worker_main.process id o).
Proof. unfold_process. keeps_steps same_ids_prim. Qed.

Lemma for_range_same_ids (body : string → Outcome → M unit) jobs w :
  (∀ id o, keeps same_ids (body id o)) →
  same_ids w (for_range body jobs w).
Proof.
  intros Hbody.
  apply (for_range_keeps body same_ids (λ _, True)); [by intros|].
  by apply Forall_forall.
Qed.

(** The simulated workers complete every task they find. *)
Lemma sim_final_record id o w t :
  tasks (w_store w) !! id = Some t →
  tasks (w_store (sim_after_run id o w t)) !! id
  = Some (mkTask (ID t) "Completed" 100 (SourcePath t)
                 (temp_docs (id +:+ "-annotated.docx"))
                 (temp_docs (id +:+ "-report.json"))).
Proof. intros _. unfold sim_after_run; simpl. apply lookup_insert_eq. Qed.

Section final_runs.
Context (body : string → Outcome → M unit) (P : Task → Prop).
Hypothesis body_frame :
  ∀ id id' o, id ≠ id' → keeps (untouched id') (body id o).
Hypothesis body_same_ids : ∀ id o, keeps same_ids (body id o).
Hypothesis body_final : ∀ id o w t,
  tasks (w_store w) !! id = Some t →
  ∃ tf, tasks (w_store (exec (body id o) w)) !! id = Some tf ∧ P tf.

(** What the last iteration for an id leaves is what the run leaves. *)
Lemma for_range_final jobs w id :
  id ∈ jobs.*1 → is_Some (tasks (w_store w) !! id) →
  ∃ tf, tasks (w_store (for_range body jobs w)) !! id = Some tf ∧ P tf.
Proof.
  revert w. induction jobs as [|[id0 o] jobs IH]; intros w Hin Hsome; simpl in *.
  - by apply elem_of_nil in Hin.
  - destruct (decide (id ∈ jobs.*1)) as [Hlater|Hlast].
    + apply IH; [done|]. by apply (body_same_ids id0 o w).
    + apply elem_of_cons in Hin as [->|Hin]; [|done].
      destruct Hsome as [t Ht].
      destruct (body_final id0 o w t Ht) as (tf & Hf & Hterm).
      destruct (for_range_untouched body id0 jobs (exec (body id0 o) w))
        as (Hsame & _); [by intros; apply body_frame | done |].
      exists tf. by rewrite Hsame.
Qed.
End final_runs.

(** X12: no task is left half-way.  After a run of the worker every id
    the worker received and the store has a record for is in a terminal
    state, whatever the services did and whatever other ids were
    processed, also when an id came more than once: [Completed] or an
    [Error: ...] state for the gRPC worker, and always [Completed] for
    the simulated worker and the first one. *)
Theorem every_received_task_ends_terminal (jobs : list (string * Outcome))
    (w : World) (id : string) :
  id ∈ jobs.*1 → is_Some (tasks (w_store w) !! id) →
  (∃ tf, final_task id (worker_grpc.Worker jobs w) = Some tf
         ∧ terminal (Status tf) = true)
  ∧ (∃ tf, final_task id (worker_sim.Worker jobs w) = Some tf
           ∧ Status tf = "Completed")
  ∧ (∃ tf, final_task id (worker_main.Worker jobs w) = Some tf
           ∧ Status tf = "Completed").
Proof.
  intros Hin Hsome. unfold final_task. split_and!.
  - apply (for_range_final worker_grpc.process); try done.
    + intros. by apply grpc_untouched.
    + apply grpc_same_ids.
    + intros id0 o w0 t Ht.
      destruct (grpc_final_record id0 o w0 t Ht) as (tf & Hf & _ & Hst).
      exists tf. split; [done|].
      destruct (stops_with o) as [st|].
      * destruct Hst as (-> & Herr & _).
        unfold terminal. by rewrite Herr, orb_true_r.
      * by subst tf.
  - apply (for_range_final worker_sim.process); try done.
    + intros. by apply sim_untouched.
    + apply sim_same_ids.
    + intros id0 o w0 t Ht. rewrite (sim_paths.sim_run id0 o w0 t Ht).
      rewrite (sim_final_record id0 o w0 t Ht). eauto.
  - apply (for_range_final worker_main.process); try done.
    + intros. by apply main_untouched.
    + apply main_same_ids.
    + intros id0 o w0 t Ht. rewrite (sim_paths.main_run id0 o w0 t Ht).
      rewrite (sim_final_record id0 o w0 t Ht). eauto.
Qed.

Lemma every_received_task_ends_terminal_witness :
  let o := mkOutcome true None true true None None CopyDone ReportDone in
  let jobs := [("a1", o); ("a2", semantics_fails); ("a1", semantics_fails)] in
  let w := start (uploaded ["a1"; "a2"]) in
  (∃ tf, final_task "a1" (worker_grpc.Worker jobs w) = Some tf
         ∧ terminal (Status tf) = true)
  ∧ (∃ tf, final_task "a1" (worker_sim.Worker jobs w) = Some tf
           ∧ Status tf = "Completed")
  ∧ (∃ tf, final_task "a1" (worker_main.Worker jobs w) = Some tf
           ∧ Status tf = "Completed").
Proof.
  apply (every_received_task_ends_terminal
           [("a1", mkOutcome true None true true None None CopyDone ReportDone);
            ("a2", semantics_fails); ("a1", semantics_fails)]
           (start (uploaded ["a1"; "a2"])) "a1").
  - by left.
  - vm_compute. eexists. reflexivity.
Defined.

(** ** Invariants of the records *)

Local Ltac in_range_stages :=
  split;
  [ repeat (apply Forall_cons; split; [split; [by split | simpl; lia]|]);
    by constructor
  | split; [by split | simpl; lia] ].

Lemma grpc_stages id o w t :
  tasks (w_store w) !! id = Some t →
  ∃ ts tf,
    w_history (exec (worker_grpc.process id o) w)
      = w_history w ++ ((λ t', cell id t' w) <$> ts)
    ∧ tasks (w_store (exec (worker_grpc.process id o) w)) !! id = Some tf
    ∧ Forall (in_range_of t) ts ∧ in_range_of t tf.
Proof.
  intros Ht.
  set (t1 := parsing_record t). set (t2 := auditing_record t).
  grpc_cases id o w t Ht.
  - stored_tasks [t1; t2; completed_record t].
    in_range_stages.
  - stored_tasks [t1; t2; set_Status "Error: inference connect" t2].
    in_range_stages.
  - stored_tasks [t1; t2; set_Status "Error: engine connect" t2].
    in_range_stages.
  - stored_tasks [t1; set_Status "Error: parse" t1].
    in_range_stages.
  - stored_tasks [t1; set_Status "Error: parser connect" t1].
    in_range_stages.
Qed.

Lemma sim_stages_in_range (body : string → Outcome → M unit) id o w t :
  (∀ t', tasks (w_store w) !! id = Some t' →
         exec (body id o) w = sim_after_run id o w t') →
  tasks (w_store w) !! id = Some t →
  ∃ ts tf,
    w_history (exec (body id o) w) = w_history w ++ ((λ t', cell id t' w) <$> ts)
    ∧ tasks (w_store (exec (body id o) w)) !! id = Some tf
    ∧ Forall (in_range_of t) ts ∧ in_range_of t tf.
Proof.
  intros Hrun Ht. rewrite (Hrun t Ht). unfold sim_after_run.
  stored_tasks (sim_stages id t).
  in_range_stages.
Qed.

Section record_runs.
Context (body : string → Outcome → M unit).
Hypothesis body_frame :
  ∀ id id' o, id ≠ id' → keeps (untouched id') (body id o).
Hypothesis body_stages : ∀ id o w t,
  tasks (w_store w) !! id = Some t →
  ∃ ts tf,
    w_history (exec (body id o) w) = w_history w ++ ((λ t', cell id t' w) <$> ts)
    ∧ tasks (w_store (exec (body id o) w)) !! id = Some tf
    ∧ Forall (in_range_of t) ts ∧ in_range_of t tf.

Lemma for_range_in_range s id t pre o post :
  tasks s !! id = Some t → 0 ≤ Progress t ≤ 100 →
  id ∉ pre.*1 → id ∉ post.*1 →
  Forall (in_range_of t)
    (task_history id (for_range body (pre ++ (id, o) :: post) (start s))).
Proof.
  intros Ht Hp Hpre Hpost.
  destruct (for_range_split body body_frame s id t o pre post Ht Hpre Hpost)
    as (Hs1 & (hs1 & Hh1 & Hf1) & _ & (hs3 & Hh3 & Hf3)).
  set (w1 := for_range body pre (start s)) in *.
  destruct (body_stages id o w1 t Hs1) as (ts & tf & Hh2 & Hs2 & Hts & Htf).
  rewrite Hs2 in Hf3.
  assert (Hconst : ∀ (t0 : Task) hs,
            in_range_of t t0 → Forall (λ s', tasks s' !! id = Some t0) hs →
            Forall (in_range_of t) (omap (field_of (λ t, t) id) hs)).
  { intros t0 hs HP Hall.
    eapply Forall_impl; [by apply (omap_field_const (λ t, t) id t0)|].
    by intros ? ->. }
  unfold task_history, field_history. rewrite Hh3, Hh2, Hh1.
  rewrite !omap_app, (omap_field_cells (λ t, t) id w1 ts), list_fmap_id.
  rewrite !Forall_app. split_and!; [|done|by apply (Hconst tf)].
  apply (Hconst t); [by split | by constructor].
Qed.
End record_runs.

(** X13: along the whole run, from the upload on, every record the store
    holds for a task keeps the id and the source path the upload gave it
    and has its progress between 0 and 100; so for the gRPC worker, the
    simulated one and the first one. *)
Theorem records_stay_in_range (io : UploadIO) (id : string) (g : Gateway)
    (pre post : list (string * Outcome)) (o : Outcome) :
  io_ok io → id ∉ pre.*1 → id ∉ post.*1 →
  let s := g_store (UploadHandler io id g).2 in
  let jobs := pre ++ (id, o) :: post in
  let good t := ID t = id ∧ SourcePath t = temp_docs (id +:+ ".docx")
                ∧ 0 ≤ Progress t ≤ 100 in
  Forall good (task_history id (worker_grpc.Worker jobs (start s)))
  ∧ Forall good (task_history id (worker_sim.Worker jobs (start s)))
  ∧ Forall good (task_history id (worker_main.Worker jobs (start s))).
Proof.
  intros Hio Hpre Hpost s jobs good.
  destruct (upload_creates io id g Hio) as (st & _ & Hs). fold s in Hs.
  assert (Himp : ∀ t', in_range_of (mkTask id st 0 (temp_docs (id +:+ ".docx")) "" "") t'
                       → good t').
  { intros t' [[H1 H2] H3]. unfold good. simpl in *.
    repeat split; try done; lia. }
  split_and!; (eapply Forall_impl; [|exact Himp]).
  - apply (for_range_in_range worker_grpc.process); try done.
    + intros. by apply grpc_untouched.
    + intros. by apply grpc_stages.
  - apply (for_range_in_range worker_sim.process); try done.
    + intros. by apply sim_untouched.
    + intros ???? Hpresent. apply sim_stages_in_range; [|done].
      intros. by apply sim_paths.sim_run.
  - apply (for_range_in_range worker_main.process); try done.
    + intros. by apply main_untouched.
    + intros ???? Hpresent. apply sim_stages_in_range; [|done].
      intros. by apply sim_paths.main_run.
Qed.

Lemma records_stay_in_range_witness :
  let o := sample_outcome [] [] in
  let s := g_store (UploadHandler all_ok "u1" sample_gateway).2 in
  let jobs := [("u0", o); ("u1", o); ("u2", o)] in
  let good t := ID t = "u1" ∧ SourcePath t = temp_docs ("u1" +:+ ".docx")
                ∧ 0 ≤ Progress t ≤ 100 in
  Forall good (task_history "u1" (worker_grpc.Worker jobs (start s)))
  ∧ Forall good (task_history "u1" (worker_sim.Worker jobs (start s)))
  ∧ Forall good (task_history "u1" (worker_main.Worker jobs (start s))).
Proof.
  apply (records_stay_in_range all_ok "u1" sample_gateway
           [("u0", sample_outcome [] [])] [("u2", sample_outcome [] [])]
           (sample_outcome [] [])).
  - exact all_ok_io_ok.
  - apply not_in_singleton. discriminate.
  - apply not_in_singleton. discriminate.
Defined.

(** *** Records under their own id *)

#[local] Instance keeps_keyed_refl : Reflexive keeps_keyed.
Proof. intros w Hk. exact Hk. Qed.

#[local] Instance keeps_keyed_trans : Transitive keeps_keyed.
Proof. intros w1 w2 w3 H12 H23 Hk. apply H23, H12, Hk. Qed.

Lemma keyed_update_task id fn :
  (∀ t, ID (fn t) = ID t) → keeps keeps_keyed (update_task id fn).
Proof.
  intros Hfn w Hk. unfold exec, update_task, UpdateTask.
  destruct (tasks (w_store w) !! id) as [t|] eqn:Ht; simpl; [|done].
  intros id' t'; simpl. destruct (decide (id' = id)) as [->|Hne].
  - rewrite lookup_insert_eq. intros [= <-]. rewrite Hfn. by apply Hk.
  - rewrite lookup_insert_ne by done. apply Hk.
Qed.

Lemma keyed_call c : keeps keeps_keyed (call c).
Proof. intros w Hk. exact Hk. Qed.

Lemma keyed_create_file made path : keeps keeps_keyed (create_file made path).
Proof. intros w Hk. exact Hk. Qed.

Local Ltac keyed_prim :=
  first [ apply keyed_call
        | apply keyed_create_file
        | apply keyed_update_task; intros; reflexivity
        | apply keeps_for_p ].

Lemma grpc_keyed id o : keeps keeps_keyed (worker_grpc.process id o).
Proof. unfold_process. keeps_steps keyed_prim. Qed.

Lemma sim_keyed id o : keeps keeps_keyed (worker_sim.process id o).
Proof. unfold_process. keeps_steps keyed_prim. Qed.

Lemma main_keyed id o : keeps keeps_keyed (worker_main.process id o).
Proof. unfold_process. keeps_steps keyed_prim. Qed.

Lemma keyed_upload io id g :
  keyed (g_store g) → keyed (g_store (UploadHandler io id g).2).
Proof.
  intros Hk. destruct (io_okb io) eqn:Hio.
  - apply io_okb_true in Hio as (Hf & Ho & Hc & Hy). unfold UploadHandler.
    rewrite Hf, Ho, Hc, Hy; simpl.
    assert (Hadd : ∀ st,
      keyed (mkStore (<[id := mkTask id st 0 (temp_docs (id +:+ ".docx")) "" ""]>
                        (tasks (g_store g))))).
    { intros st id' t'; simpl. destruct (decide (id' = id)) as [->|Hne].
      - rewrite lookup_insert_eq. by intros [= <-].
      - rewrite lookup_insert_ne by done. apply Hk. }
    destruct (try_send id (g_tasks g)); simpl; [apply Hadd|].
    unfold UpdateTask, AddTask; simpl. rewrite lookup_insert_eq; simpl.
    rewrite insert_insert_eq. apply Hadd.
  - by rewrite (upload_refused io id g Hio).
Qed.

Lemma same_ids_dom w w' :
  same_ids w w' → dom (tasks (w_store w')) = dom (tasks (w_store w)).
Proof. intros H. apply set_eq. intros i. rewrite !elem_of_dom. apply H. Qed.

(** X14: the shape of the store is kept by all that runs.  When every
    record sits under its own id, it still does after any series of
    uploads and after any run of a worker on top of them; and a run of a
    worker neither adds nor removes a record.  So for the gRPC worker,
    the simulated one and the first one. *)
Theorem store_shape_is_kept (reqs : list (UploadIO * string)) (g : Gateway)
    (jobs : list (string * Outcome)) :
  keyed (g_store g) →
  let s := g_store (uploads reqs g) in
  keyed s
  ∧ (keyed (w_store (worker_grpc.Worker jobs (start s)))
     ∧ dom (tasks (w_store (worker_grpc.Worker jobs (start s)))) = dom (tasks s))
  ∧ (keyed (w_store (worker_sim.Worker jobs (start s)))
     ∧ dom (tasks (w_store (worker_sim.Worker jobs (start s)))) = dom (tasks s))
  ∧ (keyed (w_store (worker_main.Worker jobs (start s)))
     ∧ dom (tasks (w_store (worker_main.Worker jobs (start s)))) = dom (tasks s)).
Proof.
  intros Hk s.
  assert (Hs : keyed s).
  { subst s. clear jobs. revert g Hk.
    induction reqs as [|[io id] reqs IH]; intros g Hk; simpl; [done|].
    apply IH. by apply keyed_upload. }
  assert (Hrun : ∀ body,
            (∀ id o, keeps keeps_keyed (body id o)) →
            (∀ id o, keeps same_ids (body id o)) →
            keyed (w_store (for_range body jobs (start s)))
            ∧ dom (tasks (w_store (for_range body jobs (start s)))) = dom (tasks s)).
  { intros body Hkeyed Hids. split.
    - apply (for_range_keeps body keeps_keyed (λ _, True) jobs (start s));
        [by intros | by apply Forall_forall | done].
    - apply (same_ids_dom (start s)). by apply for_range_same_ids. }
  split; [done|]. split; [|split].
  - apply (Hrun worker_grpc.process); [apply grpc_keyed | apply grpc_same_ids].
  - apply (Hrun worker_sim.process); [apply sim_keyed | apply sim_same_ids].
  - apply (Hrun worker_main.process); [apply main_keyed | apply main_same_ids].
Qed.

Lemma store_shape_is_kept_witness :
  let s := g_store (uploads [(all_ok, "u1")] sample_gateway) in
  let jobs := [("u1", sample_outcome [] [])] in
  keyed s
  ∧ (keyed (w_store (worker_grpc.Worker jobs (start s)))
     ∧ dom (tasks (w_store (worker_grpc.Worker jobs (start s)))) = dom (tasks s))
  ∧ (keyed (w_store (worker_sim.Worker jobs (start s)))
     ∧ dom (tasks (w_store (worker_sim.Worker jobs (start s)))) = dom (tasks s))
  ∧ (keyed (w_store (worker_main.Worker jobs (start s)))
     ∧ dom (tasks (w_store (worker_main.Worker jobs (start s)))) = dom (tasks s)).
Proof.
  apply (store_shape_is_kept [(all_ok, "u1")] sample_gateway
           [("u1", sample_outcome [] [])]).
  intros id t. simpl. by rewrite lookup_empty.
Defined.

(** ** The workers compared *)

(** The two gRPC workers do the same on every world. *)
Lemma grpc_main_process id o w :
  worker_grpc_main.process id o w = worker_grpc.process id o w.
Proof.
  unfold worker_grpc_main.process, worker_grpc.process.
  destruct w as [s h c f].
  destruct (tasks s !! id) as [t|] eqn:Ht.
  - unfold_steps. rewrite Ht; simpl. rewrite Ht; simpl.
    destruct (parser_dial o); simpl.
    + destruct (parse_document o) as [parsed|]; simpl.
      * rewrite !lookup_insert_eq; simpl.
        destruct (engine_dial o); simpl.
        -- destruct (inference_dial o); simpl.
           ++ by rewrite !lookup_insert_eq.
           ++ by rewrite !lookup_insert_eq.
        -- by rewrite !lookup_insert_eq.
      * by rewrite !lookup_insert_eq.
    + by rewrite !lookup_insert_eq.
  - unfold_steps. by rewrite Ht.
Qed.

(** The two simulated workers leave the same world behind. *)
Lemma sim_main_process id o w :
  exec (worker_main.process id o) w = exec (worker_sim.process id o) w.
Proof.
  destruct (tasks (w_store w) !! id) as [t|] eqn:Ht.
  - by rewrite (sim_paths.sim_run id o w t Ht), (sim_paths.main_run id o w t Ht).
  - unfold exec. by rewrite sim_absent, main_absent.
Qed.

Lemma for_range_ext (body body' : string → Outcome → M unit) jobs w :
  (∀ id o w, exec (body id o) w = exec (body' id o) w) →
  for_range body jobs w = for_range body' jobs w.
Proof.
  intros Hext. revert w.
  induction jobs as [|[id o] jobs IH]; intros w; simpl; [done|].
  rewrite Hext. apply IH.
Qed.

(** X15: the split of the gateway into packages changed nothing of what
    the workers do.  On every world and for every series of ids and
    outcomes the first gRPC worker (package main, writing through the
    pointer) leaves the same store, recorded stores, calls and files as
    the gRPC worker of package worker (going through [UpdateTask]), and
    the first simulated worker the same as the simulated worker of
    package worker. *)
Theorem workers_agree_across_packages (jobs : list (string * Outcome)) (w : World) :
  worker_grpc_main.Worker jobs w = worker_grpc.Worker jobs w
  ∧ worker_main.Worker jobs w = worker_sim.Worker jobs w.
Proof.
  split.
  - apply for_range_ext. intros. unfold exec. by rewrite grpc_main_process.
  - apply for_range_ext. apply sim_main_process.
Qed.



(** ** The reading handlers after the worker *)


Lemma error_not_completed (st : string) :
  is_error st = true → st ≠ "Completed".
Proof. intros He ->. discriminate He. Qed.

(** X17: a task the gRPC worker gave up is answered like one still in
    work.  When one of the two parse steps or of the two dials of the
    audit stage fails, the report route answers 202 with the error status
    as its only field and the download route 202 without content,
    whatever the report file would do; only the status route, with 200
    and the record, shows the error status. *)
Theorem failed_task_reads_as_unfinished (id : string) (o : Outcome) (w : World)
    (t : Task) (read : ReadResult) (st : string) :
  tasks (w_store w) !! id = Some t →
  stops_with o = Some st →
  let s' := w_store (exec (process id o) w) in
  ReportHandler read id s' = AJSON StatusAccepted [("status", st)]
  ∧ DownloadHandler id s' = ANoContent StatusAccepted
  ∧ ∃ tf, StatusHandler id s' = ATask StatusOK tf
          ∧ Status tf = st ∧ is_error st = true ∧ same_origin t tf.
Proof.
  intros Ht Hst s'. subst s'.
  destruct (grpc_final_record id o w t Ht) as (tf & Hf & Ho & Hrec).
  rewrite Hst in Hrec. destruct Hrec as (Hs & He & _).
  pose proof (error_not_completed st He) as Hnc.
  unfold ReportHandler, DownloadHandler, StatusHandler, GetTask.
  rewrite Hf, Hs. rewrite bool_decide_false by done. simpl.
  split_and!; [done | done |]. by exists tf.
Qed.

Lemma failed_task_reads_as_unfinished_witness :
  let o := mkOutcome true None true true None None CopyDone ReportDone in
  let s' := w_store (exec (process "u1" o) (start (uploaded ["u1"]))) in
  ReportHandler ReadOk "u1" s' = AJSON StatusAccepted [("status", "Error: parse")]
  ∧ DownloadHandler "u1" s' = ANoContent StatusAccepted
  ∧ ∃ tf, StatusHandler "u1" s' = ATask StatusOK tf
          ∧ Status tf = "Error: parse" ∧ is_error "Error: parse" = true
          ∧ same_origin (mkTask "u1" "Pending" 0 "../temp_docs/u1.docx" "" "") tf.
Proof.
  apply (failed_task_reads_as_unfinished "u1"
           (mkOutcome true None true true None None CopyDone ReportDone)
           (start (uploaded ["u1"]))
           (mkTask "u1" "Pending" 0 "../temp_docs/u1.docx" "" "")
           ReadOk "Error: parse"); reflexivity.
Defined.





(** ** The ports of the rule engine *)

Import engine_java.

Lemma digits_nonneg s v : digits s = Some v → 0 ≤ v.
Proof.
  destruct s; simpl; [done|].
  destruct (DecimalString.uint_of_char _ _); simpl; [|done].
  intros [= <-]. unfold Z.of_uint. lia.
Qed.

Lemma parseInt_range s v : parseInt s = Some v → MIN_VALUE ≤ v ≤ MAX_VALUE.
Proof.
  unfold MIN_VALUE, MAX_VALUE.
  destruct s as [[|c r]|]; [done| |done]. cbn [parseInt].
  destruct (Ascii.eqb c "-"); [|destruct (Ascii.eqb c "+")].
  - destruct (digits r) as [v'|] eqn:Hd; simpl; [|done].
    apply digits_nonneg in Hd.
    destruct (Z.leb_spec MIN_VALUE (- v')); [|done].
    unfold MIN_VALUE in *. intros [= <-]. lia.
  - destruct (digits r) as [v'|] eqn:Hd; simpl; [|done].
    apply digits_nonneg in Hd.
    destruct (Z.leb_spec v' MAX_VALUE); [|done].
    unfold MAX_VALUE in *. intros [= <-]. lia.
  - destruct (digits (String c r)) as [v'|] eqn:Hd; simpl; [|done].
    apply digits_nonneg in Hd.
    destruct (Z.leb_spec v' MAX_VALUE); [|done].
    unfold MAX_VALUE in *. intros [= <-]. lia.
Qed.

(** A string which parses does not begin with white space. *)
Lemma parseInt_first c r v :
  parseInt (Some (String c r)) = Some v → isWhitespace c = false.
Proof.
  cbn [parseInt].
  destruct (Ascii.eqb_spec c "-") as [->|_]; [done|].
  destruct (Ascii.eqb_spec c "+") as [->|_]; [done|].
  unfold digits. cbn [DecimalString.NilEmpty.uint_of_string].
  destruct (DecimalString.NilEmpty.uint_of_string r) as [d|]; [|done].
  destruct (DecimalString.uint_of_char c (Some d)) as [d'|] eqn:Hc; [|done].
  intros _. apply DecimalString.uint_of_char_spec in Hc.
  repeat destruct Hc as [[-> _]|Hc]; try done. by destruct Hc as [-> _].
Qed.

Lemma string_of_uint_first d :
  d ≠ Decimal.Nil →
  ∃ c r, DecimalString.NilEmpty.string_of_uint d = String c r
         ∧ Ascii.eqb c "-" = false ∧ Ascii.eqb c "+" = false.
Proof. destruct d; [done|..]; intros _; simpl; by eexists _, _. Qed.

Lemma to_uint_not_Nil p : Pos.to_uint p ≠ Decimal.Nil.
Proof.
  intros Hnil. pose proof (DecimalPos.Unsigned.of_to p) as Hp.
  rewrite Hnil in Hp. discriminate Hp.
Qed.

Lemma digits_to_uint p :
  digits (DecimalString.NilEmpty.string_of_uint (Pos.to_uint p)) = Some (Z.pos p).
Proof.
  destruct (string_of_uint_first _ (to_uint_not_Nil p)) as (c & r & Hs & _).
  unfold digits.
  rewrite DecimalString.NilEmpty.usu. rewrite Hs. simpl.
  unfold Z.of_uint. by rewrite DecimalPos.Unsigned.of_to.
Qed.

Lemma string_of_to_uint p :
  DecimalString.NilZero.string_of_uint (Pos.to_uint p)
  = DecimalString.NilEmpty.string_of_uint (Pos.to_uint p).
Proof.
  pose proof (to_uint_not_Nil p). by destruct (Pos.to_uint p).
Qed.

(** What [Integer.toString] prints, [Integer.parseInt] reads back. *)
Lemma parseInt_toString z :
  MIN_VALUE ≤ z ≤ MAX_VALUE → parseInt (Some (Integer_toString z)) = Some z.
Proof.
  unfold MIN_VALUE, MAX_VALUE, Integer_toString. intros Hz.
  destruct z as [|p|p]; [done| |].
  - cbn [Z.to_int DecimalString.NilZero.string_of_int].
    rewrite string_of_to_uint.
    destruct (string_of_uint_first _ (to_uint_not_Nil p)) as (c & r & Hs & Hm & Hp).
    pose proof (digits_to_uint p) as Hd. rewrite Hs in Hd |- *.
    cbn [parseInt]. rewrite Hm, Hp, Hd. cbn -[Z.leb].
    by rewrite (proj2 (Z.leb_le _ _)) by (unfold MAX_VALUE; lia).
  - cbn [Z.to_int DecimalString.NilZero.string_of_int].
    rewrite string_of_to_uint.
    cbn [parseInt]. rewrite Ascii.eqb_refl, digits_to_uint. cbn -[Z.leb].
    by rewrite (proj2 (Z.leb_le _ _)) by (unfold MIN_VALUE; lia).
Qed.

Lemma lastIndexOf_bounds c s : -1 ≤ lastIndexOf c s < Z.of_nat (String.length s).
Proof.
  induction s as [|x r IH]; simpl; [lia|].
  destruct (Z.leb_spec 0 (lastIndexOf c r)); [lia|].
  destruct (Ascii.eqb x c); lia.
Qed.

Lemma lastIndexOf_app c h ps :
  lastIndexOf c ps = -1 →
  lastIndexOf c (h +:+ String c ps) = Z.of_nat (String.length h).
Proof.
  intros Hps. induction h as [|x h IH]; simpl.
  - rewrite Hps. simpl. by rewrite Ascii.eqb_refl.
  - rewrite IH. destruct (Z.leb_spec 0 (Z.of_nat (String.length h))); lia.
Qed.

Lemma substring_app h c ps :
  substring (S (String.length h)) (h +:+ String c ps) = ps.
Proof. induction h as [|x h IH]; simpl; [done|]. exact IH. Qed.

Lemma length_app (h s : string) :
  String.length (h +:+ s) = (String.length h + String.length s)%nat.
Proof. induction h as [|x h IH]; simpl; [done|]. by rewrite IH. Qed.

(** With a port after the last colon, the port is what [main] reads. *)
Lemma portStr_host h ps :
  ps ≠ "" → lastIndexOf ":" ps = -1 → portStr (h +:+ String ":" ps) = ps.
Proof.
  intros Hne Hps. unfold portStr.
  rewrite (lastIndexOf_app _ h ps Hps), length_app. simpl.
  destruct ps as [|y ps']; [done|]. simpl String.length.
  destruct (Z.eqb_spec (Z.of_nat (String.length h)) (-1)) as [|_]; [lia|].
  destruct (Z.ltb_spec (Z.of_nat (String.length h))
              (Z.of_nat (String.length h + S (S (String.length ps'))) - 1))
    as [_|]; [|lia].
  simpl. replace (Z.to_nat (Z.of_nat (String.length h) + 1))
    with (S (String.length h)) by lia.
  apply substring_app.
Qed.

Lemma portStr_bare ps : lastIndexOf ":" ps = -1 → portStr ps = ps.
Proof. intros Hps. unfold portStr. by rewrite Hps. Qed.

Lemma isBlank_colon h ps : isBlank (h +:+ String ":" ps) = false.
Proof.
  induction h as [|x h IH]; simpl; [done|].
  rewrite IH. by rewrite andb_false_r.
Qed.

Lemma isBlank_no_colon s : isBlank s = true → lastIndexOf ":" s = -1.
Proof.
  induction s as [|x r IH]; simpl; [done|].
  intros [Hx Hr]%andb_true_iff. rewrite (IH Hr). simpl.
  destruct (Ascii.eqb_spec x ":") as [->|]; done.
Qed.

(** A blank address names no port. *)
Lemma parseInt_blank s : isBlank s = true → parseInt (Some (portStr s)) = None.
Proof.
  intros Hb. rewrite (portStr_bare _ (isBlank_no_colon _ Hb)).
  destruct s as [|c r]; [done|].
  simpl in Hb. apply andb_true_iff in Hb as [Hc _].
  destruct (parseInt (Some (String c r))) as [v|] eqn:Hp; [|done].
  apply parseInt_first in Hp. congruence.
Qed.

Lemma grpcPort_derived env prop :
  no_explicit_grpc env →
  grpcPort env prop
  = let httpPort := default 0 (parseInt (server_port env prop)) in
    if 0 <? httpPort then wrap32 (httpPort + 1) else 9192.
Proof.
  unfold no_explicit_grpc, grpcPort. intros Hno.
  destruct (env !! "JAVA_GRPC_PORT") as [g|]; [|done]. by rewrite Hno.
Qed.

(** X19: of the address in [JAVA_ENGINE_ADDR] only what follows the last
    colon counts.  For a port part which is not empty and has no colon,
    every host part (also one with colons in it, or none) gives the same
    [server.port] property and the same gRPC port as the port part alone:
    the decimal of the port when it parses as an [int], the property as
    it was when it does not. *)
Theorem only_the_port_of_the_address_counts (env : gmap string string)
    (prop : option string) (host ps : string) :
  ps ≠ "" → lastIndexOf ":" ps = -1 →
  let with_host := <["JAVA_ENGINE_ADDR" := host +:+ ":" +:+ ps]> env in
  let bare := <["JAVA_ENGINE_ADDR" := ps]> env in
  server_port with_host prop = server_port bare prop
  ∧ grpcPort with_host prop = grpcPort bare prop
  ∧ server_port bare prop
    = match parseInt (Some ps) with
      | Some port => Some (Integer_toString port)
      | None => prop
      end.
Proof.
  intros Hne Hps with_host bare.
  assert (server_port bare prop
          = match parseInt (Some ps) with
            | Some port => Some (Integer_toString port)
            | None => prop
            end) as Hbare.
  { unfold server_port, bare. rewrite lookup_insert_eq.
    destruct (isBlank ps) eqn:Hb; cbn [negb].
    - pose proof (parseInt_blank ps Hb) as Hp.
      rewrite (portStr_bare _ Hps) in Hp. by rewrite Hp.
    - by rewrite (portStr_bare _ Hps). }
  assert (server_port with_host prop = server_port bare prop) as Hsame.
  { rewrite Hbare. unfold server_port, with_host. rewrite lookup_insert_eq.
    change (host +:+ ":" +:+ ps) with (host +:+ String ":" ps).
    rewrite isBlank_colon. cbn [negb]. by rewrite (portStr_host _ _ Hne Hps). }
  split_and!; [done | | done].
  unfold grpcPort. rewrite Hsame.
  unfold with_host, bare. by rewrite !lookup_insert_ne by done.
Qed.

Lemma only_the_port_of_the_address_counts_witness :
  server_port (<["JAVA_ENGINE_ADDR" := "[::1]" +:+ ":" +:+ "09191"]> ∅) None
  = server_port (<["JAVA_ENGINE_ADDR" := "09191"]> ∅) None
  ∧ grpcPort (<["JAVA_ENGINE_ADDR" := "[::1]" +:+ ":" +:+ "09191"]> ∅) None
    = grpcPort (<["JAVA_ENGINE_ADDR" := "09191"]> ∅) None
  ∧ server_port (<["JAVA_ENGINE_ADDR" := "09191"]> ∅) None
    = match parseInt (Some "09191") with
      | Some port => Some (Integer_toString port)
      | None => None
      end.
Proof.
  apply (only_the_port_of_the_address_counts ∅ None "[::1]" "09191").
  - discriminate.
  - reflexivity.
Defined.

Lemma engineAddr_cases env :
  (engineAddr env = "engine-java:9191"
   ∧ (env !! "JAVA_ENGINE_ADDR" = None ∨ env !! "JAVA_ENGINE_ADDR" = Some ""))
  ∨ (∃ a, env !! "JAVA_ENGINE_ADDR" = Some a ∧ a ≠ "" ∧ engineAddr env = a).
Proof.
  unfold engineAddr, getenvDefault, Getenv.
  destruct (env !! "JAVA_ENGINE_ADDR") as [a|]; simpl; [|by left; split; [|left]].
  destruct (decide (a = "")) as [->|Hne].
  - left. by split; [|right].
  - right. exists a. by rewrite bool_decide_false by done.
Qed.

(** X20: the engine's gRPC server does not listen where the gateway
    dials.  Both read [JAVA_ENGINE_ADDR]; an empty value counts as unset
    on both sides, and both gRPC workers of the gateway dial the same
    address.  With [JAVA_GRPC_PORT] unset or blank and no [server.port]
    property set beforehand, when the address the gateway dials names the
    port [p], the engine starts its gRPC server on [p + 1] (for the
    defaults: dialled engine-java:9191, started on 9192); when [p] is not
    positive, on 9192. *)
Theorem grpc_server_is_next_to_the_dialled_port (env : gmap string string) (p : Z) :
  no_explicit_grpc env →
  parseInt (Some (portStr (engineAddr env))) = Some p →
  engineAddr_main env = engineAddr env
  ∧ grpcPort env None = (if 0 <? p then wrap32 (p + 1) else 9192)
  ∧ (0 < p < MAX_VALUE → grpcPort env None = p + 1).
Proof.
  intros Hno Hp.
  assert (engineAddr_main env = engineAddr env) as Hmain.
  { unfold engineAddr_main, engineAddr, getenvDefault.
    by destruct (bool_decide (Getenv env "JAVA_ENGINE_ADDR" = "")). }
  assert (grpcPort env None = (if 0 <? p then wrap32 (p + 1) else 9192)) as Hg.
  { rewrite (grpcPort_derived _ _ Hno).
    destruct (engineAddr_cases env) as [[Ha Hset]|(a & Hset & Hne & Ha)];
      rewrite Ha in Hp.
    - assert (server_port env None = None) as ->
        by (unfold server_port; by destruct Hset as [-> | ->]).
      vm_compute in Hp. by injection Hp as <-.
    - unfold server_port. rewrite Hset.
      destruct (isBlank a) eqn:Hb; cbn [negb].
      + rewrite (parseInt_blank a Hb) in Hp. done.
      + rewrite Hp.
        by rewrite (parseInt_toString p (parseInt_range _ _ Hp)). }
  split_and!; [done | done |].
  intros Hpos. rewrite Hg.
  destruct (Z.ltb_spec 0 p); [|lia].
  unfold wrap32, MAX_VALUE in *. rewrite Z.mod_small; lia.
Qed.

Lemma grpc_server_is_next_to_the_dialled_port_witness :
  engineAddr_main ∅ = engineAddr ∅
  ∧ grpcPort ∅ None = (if 0 <? 9191 then wrap32 (9191 + 1) else 9192)
  ∧ (0 < 9191 < MAX_VALUE → grpcPort ∅ None = 9191 + 1).
Proof.
  apply (grpc_server_is_next_to_the_dialled_port ∅ 9191); reflexivity.
Defined.

(** X21: a gRPC port derived from the HTTP port is a usable one but for
    the wrap-around.  With [JAVA_GRPC_PORT] unset or blank the port
    handed to the gRPC server is between 2 and 2147483647, except when
    [server.port] reads 2147483647: then [httpPort + 1] wraps around and
    the server is started on -2147483648. *)
Theorem derived_grpc_port_wraps_around (env : gmap string string)
    (prop : option string) :
  no_explicit_grpc env →
  2 ≤ grpcPort env prop ≤ MAX_VALUE
  ∨ (grpcPort env prop = MIN_VALUE
     ∧ parseInt (server_port env prop) = Some MAX_VALUE).
Proof.
  intros Hno. rewrite (grpcPort_derived _ _ Hno).
  destruct (parseInt (server_port env prop)) as [h|] eqn:Hh; simpl.
  - apply parseInt_range in Hh. unfold MIN_VALUE, MAX_VALUE, wrap32 in *.
    destruct (Z.ltb_spec 0 h); [|lia].
    destruct (decide (h = 2147483647)) as [->|]; [by right|].
    left. rewrite Z.mod_small; lia.
  - left. unfold MAX_VALUE. lia.
Qed.

Lemma derived_grpc_port_wraps_around_witness :
  2 ≤ grpcPort (<["JAVA_ENGINE_ADDR" := "0.0.0.0:2147483647"]> ∅) None ≤ MAX_VALUE
  ∨ (grpcPort (<["JAVA_ENGINE_ADDR" := "0.0.0.0:2147483647"]> ∅) None = MIN_VALUE
     ∧ parseInt (server_port (<["JAVA_ENGINE_ADDR" := "0.0.0.0:2147483647"]> ∅) None)
       = Some MAX_VALUE).
Proof.
  apply (derived_grpc_port_wraps_around
           (<["JAVA_ENGINE_ADDR" := "0.0.0.0:2147483647"]> ∅) None).
  reflexivity.
Defined.


(** ** The worker against the engine's embedded server *)

(** X22: a report cannot tell the embedded server from an engine which
    is down.  The handlers of [EmbeddedGrpcServer] answer [AuditRules]
    and [AnalyzeSemantics] with no issue, which is also what the worker
    puts in the place of a failed call; so an iteration whose audit calls
    are answered by them leaves the very world (store, recorded stores,
    calls with their arguments, files) of the iteration whose two audit
    calls fail, and a task which gets to the audit stage is completed
    with an empty report. *)
Theorem stub_engine_reads_as_no_engine (id : string) (o : Outcome) (w : World) :
  answered_by_stub o →
  exec (process id o) w = exec (process id (without_audits o)) w
  ∧ (∀ t, tasks (w_store w) !! id = Some t → reaches_audit o = true →
       final_task id (exec (process id o) w) = Some (completed_record t)
       ∧ reported_issues id (exec (process id o) w)
         = reported_issues id w ++ [[]]).
Proof.
  intros Hstub. split.
  - destruct (tasks (w_store w) !! id) as [t|] eqn:Ht.
    + grpc_cases id o w t Ht.
      * destruct (Hstub parsed Hp) as [Ha Hs].
        rewrite (grpc_paths.completed id (without_audits o) w t Ht parsed);
          try done.
        cbv zeta. by rewrite Ha, Hs.
      * by rewrite (grpc_paths.inference_connect id (without_audits o) w t Ht parsed).
      * by rewrite (grpc_paths.engine_connect id (without_audits o) w t Ht parsed).
      * by rewrite (grpc_paths.parse_error id (without_audits o) w t Ht).
      * by rewrite (grpc_paths.parser_connect id (without_audits o) w t Ht).
    + unfold exec. by rewrite !grpc_absent.
  - intros t Ht Hr.
    rewrite (grpc_report id o w t Ht Hr).
    destruct (grpc_final_record id o w t Ht) as (tf & Hf & _ & Hst).
    pose proof Hr as (parsed & _ & Hp & _)%reaches_audit_true.
    apply stops_with_None in Hr. rewrite Hr in Hst. subst tf.
    destruct (Hstub parsed Hp) as [-> ->]. done.
Qed.

Lemma stub_engine_reads_as_no_engine_witness :
  let parsed := engine_grpc.ParseDocument "../temp_docs/u1.docx" in
  let o := mkOutcome true (Some parsed) true true
             (Some (engine_grpc.AuditRules parsed))
             (Some (engine_grpc.AnalyzeSemantics (Sections parsed)))
             CopyDone ReportDone in
  let w := start (uploaded ["u1"]) in
  exec (process "u1" o) w = exec (process "u1" (without_audits o)) w
  ∧ (∀ t, tasks (w_store w) !! "u1" = Some t → reaches_audit o = true →
       final_task "u1" (exec (process "u1" o) w) = Some (completed_record t)
       ∧ reported_issues "u1" (exec (process "u1" o) w)
         = reported_issues "u1" w ++ [[]]).
Proof.
  apply (stub_engine_reads_as_no_engine "u1").
  intros parsed [= <-]. done.
Defined.

(** ** The handlers of package [main] *)

(** X23: the split into packages changed nothing of what the handlers
    do.  The upload handler of package [main], which writes the map and
    the status through the pointer, never meets a nil pointer and gives
    the answer and the gateway of the upload handler of package
    [handlers]; the three reading handlers give the same answers on every
    store. *)
Theorem handlers_agree_across_packages (io : UploadIO) (read : ReadResult)
    (id : string) (g : Gateway) :
  handlers_main.UploadHandler io id g = Some (UploadHandler io id g)
  ∧ handlers_main.StatusHandler id (g_store g) = StatusHandler id (g_store g)
  ∧ handlers_main.ReportHandler read id (g_store g)
    = ReportHandler read id (g_store g)
  ∧ handlers_main.DownloadHandler id (g_store g)
    = DownloadHandler id (g_store g).
Proof.
  split_and!; [|done..].
  unfold handlers_main.UploadHandler, UploadHandler.
  destruct (form_file_ok io), (open_ok io), (create_ok io), (copy_ok io);
    simpl; try done.
  destruct (try_send id (g_tasks g)); [done|].
  unfold UpdateTask, AddTask; simpl. by rewrite !lookup_insert_eq.
Qed.

(** ** The files of the tasks *)








